(** * WHOIS-Tool: a shallow embedding of [main.py] and its properties

    The program is a menu loop around one class, [WhoisTool], which keeps the
    records of a session in a list, memoises lookups with [functools.lru_cache]
    and writes the list to JSON or CSV.  The embedding follows the source:

    - Python values of the record fields ([None], [str], [datetime], lists)
      with the builtin [str]/[repr] that [WhoisResult.to_dict] applies;
    - the record objects live in an object store ([heap]); [self.results] and
      the cache hold references, so that the object returned by a lookup, the
      one appended to the list and the one kept by the cache are one object;
    - methods are computations in a state-and-exception monad; [try]/[except]
      is a combinator of that monad;
    - the WHOIS collaborator ([whois.whois]) is a parameter of the lookup: an
      arbitrary function of the number of earlier queries and the domain;
    - the file system is a tree of directories and regular files. *)

From Stdlib Require Import Ascii String.
From stdpp Require Import base option list strings pretty.

Set Warnings "-register-all".
Local Open Scope string_scope.
Local Open Scope list_scope.
Local Open Scope nat_scope.

(** ** Python values held by a record *)

Module Py.

(** A naive [datetime.datetime] (no [tzinfo]), as in the annotations of
    [WhoisResult]. *)
Record datetime := mk_datetime {
  year : N; month : N; day : N;
  hour : N; minute : N; second : N; microsecond : N
}.

(** The values a field holds when it is not [None]. *)
Inductive value :=
| VStr (s : string)
| VDate (d : datetime)
| VList (l : list value).

Definition quote1 : ascii := "'"%char.
Definition quote2 : ascii := "034"%char.
Definition backslash : ascii := "\"%char.

Fixpoint contains (c : ascii) (s : string) : bool :=
  match s with
  | EmptyString => false
  | String c' s' => if Ascii.eqb c c' then true else contains c s'
  end.

Definition hex_digit (n : N) : ascii :=
  match n with
  | 0 => "0" | 1 => "1" | 2 => "2" | 3 => "3" | 4 => "4" | 5 => "5"
  | 6 => "6" | 7 => "7" | 8 => "8" | 9 => "9" | 10 => "a" | 11 => "b"
  | 12 => "c" | 13 => "d" | 14 => "e" | _ => "f"
  end%char%N.

Definition hex2 (n : N) : string :=
  String (hex_digit (n / 16)) (String (hex_digit (n mod 16)) "").

(** [zfill w s]: [s] padded with zeros on the left to width [w]
    (the [%0wd] of [datetime.isoformat]). *)
Definition zfill (w : nat) (s : string) : string :=
  String.concat "" (replicate (w - String.length s) "0") +:+ s.

Definition dec (w : nat) (n : N) : string := zfill w (pretty n).

(** One character of [repr] of a [str].  Bytes above 127 belong to the
    UTF-8 encoding of a code point, which is taken to be printable and is
    copied. *)
Definition repr_char (q c : ascii) : string :=
  let n := N_of_ascii c in
  if Ascii.eqb c q || Ascii.eqb c backslash then String backslash (String c "")
  else if (n =? 9)%N then String backslash "t"
  else if (n =? 10)%N then String backslash "n"
  else if (n =? 13)%N then String backslash "r"
  else if (n <? 32)%N || (n =? 127)%N then String backslash ("x" +:+ hex2 n)
  else String c "".

Fixpoint repr_chars (q : ascii) (s : string) : string :=
  match s with
  | EmptyString => ""
  | String c s' => repr_char q c +:+ repr_chars q s'
  end.

(** [repr] of a [str]: single quotes, unless the text has a single quote
    and no double quote. *)
Definition repr_str (s : string) : string :=
  let q := if contains quote1 s && negb (contains quote2 s)
           then quote2 else quote1 in
  String q (repr_chars q s +:+ String q "").

(** [str] of a [datetime]: [isoformat(sep=' ')]. *)
Definition str_datetime (d : datetime) : string :=
  dec 4 (year d) +:+ "-" +:+ dec 2 (month d) +:+ "-" +:+ dec 2 (day d)
  +:+ " " +:+ dec 2 (hour d) +:+ ":" +:+ dec 2 (minute d) +:+ ":"
  +:+ dec 2 (second d)
  +:+ (if (microsecond d =? 0)%N then "" else "." +:+ dec 6 (microsecond d)).

(** [repr] of a [datetime]: trailing zero second and microsecond are
    dropped. *)
Definition repr_datetime (d : datetime) : string :=
  "datetime.datetime(" +:+ pretty (year d) +:+ ", " +:+ pretty (month d)
  +:+ ", " +:+ pretty (day d) +:+ ", " +:+ pretty (hour d) +:+ ", "
  +:+ pretty (minute d)
  +:+ (if (microsecond d =? 0)%N
       then (if (second d =? 0)%N then "" else ", " +:+ pretty (second d))
       else ", " +:+ pretty (second d) +:+ ", " +:+ pretty (microsecond d))
  +:+ ")".

Fixpoint repr (v : value) : string :=
  match v with
  | VStr s => repr_str s
  | VDate d => repr_datetime d
  | VList l => "[" +:+ String.concat ", " (map repr l) +:+ "]"
  end.

(** The builtin [str]. *)
Definition str (v : value) : string :=
  match v with
  | VStr s => s
  | VDate d => str_datetime d
  | VList _ => repr v
  end.

(** [bool(s)] for a [str]. *)
Definition truthy (s : string) : bool :=
  match s with EmptyString => false | _ => true end.

(** [f"{key:<w}"]. *)
Definition ljust (w : nat) (s : string) : string :=
  s +:+ String.concat "" (replicate (w - String.length s) " ").

End Py.

(** ** Exceptions and the file system *)

(** A [pathlib.Path] by its parts, relative to the directory the process
    runs in; [[]] is [Path(".")], which is also [Path("")]. *)
Definition path := list string.

(** [Path.parent]. *)
Definition parent (p : path) : path := removelast p.

Definition path_str (p : path) : string :=
  match p with
  | [] => "."
  | _ => String.concat "/" p
  end.

(** The exceptions of the program: the [ValueError] of the CSV export, the
    [OSError]s of [mkdir] and [open], and [OtherError cls msg] for any other
    subclass of [Exception] the collaborator raises. *)
Inductive exn :=
| ValueError (msg : string)
| FileExistsError (p : path)
| NotADirectoryError (p : path)
| IsADirectoryError (p : path)
| FileNotFoundError (p : path)
| OtherError (cls msg : string).

Definition is_OSError (e : exn) : bool :=
  match e with
  | FileExistsError _ | NotADirectoryError _
  | IsADirectoryError _ | FileNotFoundError _ => true
  | _ => false
  end.

(** [str(e)], as the log messages interpolate it. *)
Definition exn_str (e : exn) : string :=
  match e with
  | ValueError msg => msg
  | FileExistsError p => "[Errno 17] File exists: " +:+ Py.repr_str (path_str p)
  | NotADirectoryError p =>
      "[Errno 20] Not a directory: " +:+ Py.repr_str (path_str p)
  | IsADirectoryError p =>
      "[Errno 21] Is a directory: " +:+ Py.repr_str (path_str p)
  | FileNotFoundError p =>
      "[Errno 2] No such file or directory: " +:+ Py.repr_str (path_str p)
  | OtherError _ msg => msg
  end.

(** A directory tree.  Permissions, links and devices are not modelled: an
    operation fails only for the shape of the tree. *)
Inductive node :=
| File (content : string)
| Dir (entries : list (string * node)).

Fixpoint entry_lookup (c : string) (es : list (string * node)) : option node :=
  match es with
  | [] => None
  | (c', n) :: es' => if decide (c = c') then Some n else entry_lookup c es'
  end.

Fixpoint entry_update (c : string) (n : node) (es : list (string * node))
  : list (string * node) :=
  match es with
  | [] => [(c, n)]
  | (c', n') :: es' =>
      if decide (c = c') then (c, n) :: es' else (c', n') :: entry_update c n es'
  end.

Fixpoint fs_lookup (p : path) (n : node) : option node :=
  match p with
  | [] => Some n
  | c :: p' =>
      match n with
      | Dir es => entry_lookup c es ≫= fs_lookup p'
      | File _ => None
      end
  end.

(** The text of the regular file at [p]. *)
Definition read_file (p : path) (n : node) : option string :=
  match fs_lookup p n with
  | Some (File text) => Some text
  | _ => None
  end.

Fixpoint fresh_dirs (p : path) : node :=
  match p with
  | [] => Dir []
  | c :: p' => Dir [(c, fresh_dirs p')]
  end.

(** [Path.mkdir(parents=True, exist_ok=True)]: missing directories along [p]
    are created; a regular file in the way is an error.  [whole] is the path
    the error reports. *)
Fixpoint mkdir_from (whole p : path) (n : node) : exn + node :=
  match n with
  | File _ =>
      match p with
      | [] => inl (FileExistsError whole)
      | _ => inl (NotADirectoryError whole)
      end
  | Dir es =>
      match p with
      | [] => inr n
      | c :: p' =>
          match entry_lookup c es with
          | Some child =>
              match mkdir_from whole p' child with
              | inr child' => inr (Dir (entry_update c child' es))
              | inl e => inl e
              end
          | None => inr (Dir (entry_update c (fresh_dirs p') es))
          end
      end
  end.

Definition mkdir_parents (p : path) (n : node) : exn + node := mkdir_from p p n.

(** [Path.open('w')]: the file is created, or truncated when it exists. *)
Fixpoint open_from (whole p : path) (n : node) : exn + node :=
  match n with
  | File _ =>
      match p with
      | [] => inr (File "")
      | _ => inl (NotADirectoryError whole)
      end
  | Dir es =>
      match p with
      | [] => inl (IsADirectoryError whole)
      | c :: p' =>
          match entry_lookup c es with
          | Some child =>
              match open_from whole p' child with
              | inr child' => inr (Dir (entry_update c child' es))
              | inl e => inl e
              end
          | None =>
              match p' with
              | [] => inr (Dir (entry_update c (File "") es))
              | _ => inl (FileNotFoundError whole)
              end
          end
      end
  end.

Definition open_w (p : path) (n : node) : exn + node := open_from p p n.

(** [f.write(text)] on the file opened at [p]: the text is appended. *)
Fixpoint write_at (p : path) (text : string) (n : node) : node :=
  match p, n with
  | [], File old => File (old +:+ text)
  | c :: p', Dir es =>
      match entry_lookup c es with
      | Some child => Dir (entry_update c (write_at p' text child) es)
      | None => n
      end
  | _, _ => n
  end.

(** ** The record and its conversion *)

(** The object [whois.whois] returns; a missing attribute reads as [None]. *)
Module whois.
Record WhoisEntry := mk_WhoisEntry {
  registrar : option Py.value;
  whois_server : option Py.value;
  creation_date : option Py.value;
  expiration_date : option Py.value;
  updated_date : option Py.value;
  status : option Py.value;
  name_servers : option Py.value;
  emails : option Py.value
}.
End whois.

(** The dataclass [WhoisResult]; [None] is Python's [None]. *)
Record WhoisResult := mk_WhoisResult {
  domain : string;
  registrar : option Py.value;
  whois_server : option Py.value;
  creation_date : option Py.value;
  expiration_date : option Py.value;
  updated_date : option Py.value;
  status : option Py.value;
  name_servers : option Py.value;
  emails : option Py.value
}.

(** A [dict] with [str] keys, in insertion order. *)
Definition dict (V : Type) := list (string * V).

Fixpoint dict_get {V} (k : string) (d : dict V) : option V :=
  match d with
  | [] => None
  | (k', v) :: d' => if decide (k = k') then Some v else dict_get k d'
  end.

Definition keys {V} (d : dict V) : list string := map fst d.

(** [dataclasses.asdict]: the fields in declaration order (the copies it
    makes are equal values). *)
Definition asdict (r : WhoisResult) : dict (option Py.value) :=
  [ ("domain", Some (Py.VStr (domain r)));
    ("registrar", registrar r);
    ("whois_server", whois_server r);
    ("creation_date", creation_date r);
    ("expiration_date", expiration_date r);
    ("updated_date", updated_date r);
    ("status", status r);
    ("name_servers", name_servers r);
    ("emails", emails r) ].

(** [{k: str(v) if v is not None else None for k, v in asdict(self).items()}] *)
Definition to_dict (r : WhoisResult) : dict (option string) :=
  map (λ kv, (kv.1, match kv.2 with Some v => Some (Py.str v) | None => None end))
      (asdict r).

(** ** The writers of the standard library *)

Module json.

Inductive value :=
| Null
| Str (s : string)
| Array (items : list value)
| Object (members : list (string * value)).

(** The Python objects the export hands to [json.dump]. *)
Definition of_str (v : option string) : value :=
  match v with Some s => Str s | None => Null end.

Definition of_dict (d : dict (option string)) : value :=
  Object (map (λ kv, (kv.1, of_str kv.2)) d).

Definition of_list (l : list (dict (option string))) : value :=
  Array (map of_dict l).

Definition hex4 (n : N) : string := "00" +:+ Py.hex2 n.

(** [encode_basestring]: with [ensure_ascii=False] only the quote, the
    backslash and the control characters are escaped. *)
Definition escape_char (c : ascii) : string :=
  let n := N_of_ascii c in
  if Ascii.eqb c Py.backslash then String Py.backslash (String Py.backslash "")
  else if Ascii.eqb c Py.quote2 then String Py.backslash (String Py.quote2 "")
  else if (n =? 8)%N then String Py.backslash "b"
  else if (n =? 12)%N then String Py.backslash "f"
  else if (n =? 10)%N then String Py.backslash "n"
  else if (n =? 13)%N then String Py.backslash "r"
  else if (n =? 9)%N then String Py.backslash "t"
  else if (n <? 32)%N then String Py.backslash ("u" +:+ hex4 n)
  else String c "".

Fixpoint escape (s : string) : string :=
  match s with
  | EmptyString => ""
  | String c s' => escape_char c +:+ escape s'
  end.

Definition encode_basestring (s : string) : string :=
  String Py.quote2 (escape s +:+ String Py.quote2 "").

Definition indent : nat := 4.

Definition newline_indent (level : nat) : string :=
  String "010"%char (String.concat "" (replicate (indent * level) " ")).

(** The text [json.dump(obj, f, indent=4, ensure_ascii=False)] produces,
    at nesting depth [level]. *)
Fixpoint encode (level : nat) (v : value) : string :=
  match v with
  | Null => "null"
  | Str s => encode_basestring s
  | Array [] => "[]"
  | Array items =>
      "[" +:+ newline_indent (S level)
      +:+ String.concat ("," +:+ newline_indent (S level))
            (map (encode (S level)) items)
      +:+ newline_indent level +:+ "]"
  | Object [] => "{}"
  | Object members =>
      "{" +:+ newline_indent (S level)
      +:+ String.concat ("," +:+ newline_indent (S level))
            (map (λ kv, encode_basestring kv.1 +:+ ": " +:+ encode (S level) kv.2)
                 members)
      +:+ newline_indent level +:+ "}"
  end.

Definition dumps (v : value) : string := encode 0 v.

End json.

Module csv.

Definition delimiter : ascii := ","%char.
Definition quotechar : ascii := Py.quote2.
Definition lineterminator : string :=
  String "013"%char (String "010"%char "").

(** [QUOTE_MINIMAL]: a field is quoted when it holds the delimiter, the
    quote character or a character of the line terminator. *)
Definition needs_quote (s : string) : bool :=
  Py.contains delimiter s || Py.contains quotechar s
  || Py.contains "013"%char s || Py.contains "010"%char s.

Fixpoint double_quotes (s : string) : string :=
  match s with
  | EmptyString => ""
  | String c s' =>
      if Ascii.eqb c quotechar then String c (String c (double_quotes s'))
      else String c (double_quotes s')
  end.

Definition field (s : string) : string :=
  if needs_quote s
  then String quotechar (double_quotes s +:+ String quotechar "")
  else s.

(** The line [writer.writerow(cells)] writes; [None] is written as the
    empty string, and a lone empty field is quoted. *)
Definition row (cells : list (option string)) : string :=
  match cells with
  | [c] =>
      match default "" c with
      | EmptyString => String quotechar (String quotechar lineterminator)
      | s => field s +:+ lineterminator
      end
  | _ => String.concat "," (map (λ c, field (default "" c)) cells)
         +:+ lineterminator
  end.

(** [DictWriter._dict_to_list] with [extrasaction='raise'], [restval='']:
    the keys of the row that are not field names, if any, else the cells in
    the order of the field names. *)
Definition dict_to_list (fieldnames : list string) (rowdict : dict (option string))
  : list string + list (option string) :=
  match filter (λ k, k ∉ fieldnames) (keys rowdict) with
  | [] => inr (map (λ k, default (Some "") (dict_get k rowdict)) fieldnames)
  | wrong => inl wrong
  end.

End csv.

(** ** Program state and the monad of methods *)

(** A reference to a [WhoisResult] object: its index in the object store. *)
Abbreviation loc := nat (only parsing).

Inductive level := INFO | ERROR.

Record state := mk_state {
  heap : list WhoisResult;            (* the record objects, oldest first *)
  results : list loc;                 (* [self.results] *)
  cache : list (string * option loc); (* the [lru_cache], most recent first *)
  queries : list string;              (* calls of the collaborator so far *)
  log : list (level * string);        (* what [logger] has emitted *)
  stdout : list string;               (* the lines printed *)
  fs : node                           (* the file system *)
}.

(** [WhoisTool()] on a machine whose disk is [disk]. *)
Definition init (disk : node) : state := mk_state [] [] [] [] [] [] disk.

(** The records [self.results] refers to. *)
Definition records (s : state) : list WhoisResult :=
  omap (λ l, heap s !! l) (results s).

Inductive outcome (A : Type) :=
| Return (a : A)
| Raise (e : exn).
Arguments Return {A} a.
Arguments Raise {A} e.

Definition M (A : Type) : Type := state → outcome A * state.

Instance M_ret : MRet M := λ A a s, (Return a, s).
Instance M_bind : MBind M := λ A B f m s,
  match m s with
  | (Return a, s') => f a s'
  | (Raise e, s') => (Raise e, s')
  end.

Definition raise {A} (e : exn) : M A := λ s, (Raise e, s).

(** [try: body / except Exception as e: handler e]. *)
Definition try_except {A} (body : M A) (handler : exn → M A) : M A := λ s,
  match body s with
  | (Return a, s') => (Return a, s')
  | (Raise e, s') => handler e s'
  end.

Definition gets {A} (f : state → A) : M A := λ s, (Return (f s), s).

Definition logger_emit (lv : level) (msg : string) : M unit := λ s,
  (Return tt,
   mk_state (heap s) (results s) (cache s) (queries s)
            (log s ++ [(lv, msg)]) (stdout s) (fs s)).
Definition logger_info : string → M unit := logger_emit INFO.
Definition logger_error : string → M unit := logger_emit ERROR.

Definition print (line : string) : M unit := λ s,
  (Return tt,
   mk_state (heap s) (results s) (cache s) (queries s)
            (log s) (stdout s ++ [line]) (fs s)).

(** The constructor call [WhoisResult(...)]: a new object. *)
Definition new_WhoisResult (r : WhoisResult) : M loc := λ s,
  (Return (length (heap s)),
   mk_state (heap s ++ [r]) (results s) (cache s) (queries s)
            (log s) (stdout s) (fs s)).

(** [self.results.append(result)]. *)
Definition results_append (l : loc) : M unit := λ s,
  (Return tt,
   mk_state (heap s) (results s ++ [l]) (cache s) (queries s)
            (log s) (stdout s) (fs s)).

Definition set_cache (c : list (string * option loc)) : M unit := λ s,
  (Return tt,
   mk_state (heap s) (results s) c (queries s) (log s) (stdout s) (fs s)).

Definition set_fs (n : node) (s : state) : state :=
  mk_state (heap s) (results s) (cache s) (queries s) (log s) (stdout s) n.

(** A file-system call: the new tree, or the [OSError]. *)
Definition fs_call (op : node → exn + node) : M unit := λ s,
  match op (fs s) with
  | inr n => (Return tt, set_fs n s)
  | inl e => (Raise e, s)
  end.

Definition f_write (f : path) (text : string) : M unit := λ s,
  (Return tt, set_fs (write_at f text (fs s)) s).

(** [for x in xs: body x]. *)
Fixpoint for_each {A} (xs : list A) (body : A → M unit) : M unit :=
  match xs with
  | [] => mret tt
  | x :: xs' => body x;; for_each xs' body
  end.

(** ** [functools.lru_cache] *)

Definition maxsize : nat := 128.

Definition cache_get {V} (key : string) (c : list (string * V)) : option V :=
  dict_get key c.

(** A hit moves the entry to the most recently used end. *)
Definition cache_touch {V} (key : string) (v : V) (c : list (string * V))
  : list (string * V) :=
  (key, v) :: filter (λ e, e.1 ≠ key) c.

(** A miss stores the result; a full cache first drops its least recently
    used entry. *)
Definition cache_put {V} (key : string) (v : V) (c : list (string * V))
  : list (string * V) :=
  (key, v) :: (if decide (maxsize ≤ length c)%nat then removelast c else c).

(** The wrapper [lru_cache(maxsize=128)] puts around a method of the one
    [WhoisTool] object: the key is the argument. *)
Definition lru_cache (user_function : string → M (option loc)) (key : string)
  : M (option loc) :=
  c ← gets cache;
  match cache_get key c with
  | Some result => set_cache (cache_touch key result c);; mret result
  | None =>
      result ← user_function key;
      c' ← gets cache;
      match cache_get key c' with
      | Some _ => mret result
      | None => set_cache (cache_put key result c');; mret result
      end
  end.

(** ** The methods of [WhoisTool] *)

Section WhoisTool.

(** [whois.whois]: what the [n]-th query answers for a domain, the parsed
    entry or an exception. *)
Variable whois_whois : nat → string → exn + whois.WhoisEntry.

Definition whois_query (domain : string) : M whois.WhoisEntry := λ s,
  let s' := mk_state (heap s) (results s) (cache s) (queries s ++ [domain])
                     (log s) (stdout s) (fs s) in
  match whois_whois (length (queries s)) domain with
  | inr data => (Return data, s')
  | inl e => (Raise e, s')
  end.

(** The body of [_perform_whois_sync], under the decorator. *)
Definition perform_whois_sync_wrapped (domain : string) : M (option loc) :=
  try_except
    (logger_info ("Performing WHOIS lookup for: " +:+ domain);;
     data ← whois_query domain;
     result ← new_WhoisResult
       {| domain := domain;
          registrar := whois.registrar data;
          whois_server := whois.whois_server data;
          creation_date := whois.creation_date data;
          expiration_date := whois.expiration_date data;
          updated_date := whois.updated_date data;
          status := whois.status data;
          name_servers := whois.name_servers data;
          emails := whois.emails data |};
     results_append result;;
     logger_info ("WHOIS lookup successful for " +:+ domain);;
     mret (Some result))
    (λ e,
     logger_error ("Error during WHOIS lookup for " +:+ domain +:+ ": "
                   +:+ exn_str e);;
     mret None).

Definition _perform_whois_sync : string → M (option loc) :=
  lru_cache perform_whois_sync_wrapped.

(** The call runs on a worker of the executor and is awaited: its result or
    its exception comes back to the caller. *)
Definition perform_whois_async (domain : string) : M (option loc) :=
  try_except
    (_perform_whois_sync domain)
    (λ e,
     logger_error ("Error during WHOIS lookup for " +:+ domain +:+ ": "
                   +:+ exn_str e);;
     mret None).

End WhoisTool.

(** The banner of [display_result]; colour codes are left out of the
    printed text. *)
Definition banner : string := "

╔═══════════════╗
║ WHOIS Results ║
╚═══════════════╝".

Definition display_line (key value : string) : string :=
  Py.ljust 20 key +:+ ": " +:+ value.

(** The lines [display_result] prints for the items of a dictionary: one per
    value that is neither [None] nor empty. *)
Definition display_items (d : dict (option string)) : M unit :=
  for_each d (λ kv,
    match kv.2 with
    | Some value =>
        if Py.truthy value then print (display_line kv.1 value) else mret tt
    | None => mret tt
    end).

(** A reference always denotes an object of the store (references come from
    lookups); one that would not reads as no result. *)
Definition display_result (result : option loc) : M unit :=
  r ← gets (λ s, result ≫= (λ l, heap s !! l));
  match r with
  | None => print "[!] No results available."
  | Some r => print banner;; display_items (to_dict r)
  end.

Definition export_to_json (filename : path) : M unit :=
  let filepath := filename in
  try_except
    (fs_call (mkdir_parents (parent filepath));;
     fs_call (open_w filepath);;
     rs ← gets records;
     f_write filepath (json.dumps (json.of_list (map to_dict rs)));;
     logger_info ("Results exported to JSON: " +:+ path_str filepath))
    (λ e,
     logger_error ("Error exporting to JSON: " +:+ exn_str e);;
     raise e).

(** [csv.DictWriter] on the file opened at [f]. *)
Definition writerow (f : path) (fieldnames : list string)
    (rowdict : dict (option string)) : M unit :=
  match csv.dict_to_list fieldnames rowdict with
  | inr cells => f_write f (csv.row cells)
  | inl wrong =>
      raise (ValueError ("dict contains fields not in fieldnames: "
                         +:+ String.concat ", " (map Py.repr_str wrong)))
  end.

Definition writeheader (f : path) (fieldnames : list string) : M unit :=
  writerow f fieldnames (zip fieldnames (map Some fieldnames)).

Definition writerows (f : path) (fieldnames : list string)
    (rowdicts : list (dict (option string))) : M unit :=
  for_each rowdicts (writerow f fieldnames).

Definition export_to_csv (filename : path) : M unit :=
  let filepath := filename in
  try_except
    (fs_call (mkdir_parents (parent filepath));;
     fs_call (open_w filepath);;
     refs ← gets results;
     match refs with
     | [] => raise (ValueError "No results to export")
     | _ =>
         rs ← gets records;
         let fieldnames :=
           match rs with r0 :: _ => keys (to_dict r0) | [] => [] end in
         writeheader filepath fieldnames;;
         writerows filepath fieldnames (map to_dict rs)
     end;;
     logger_info ("Results exported to CSV: " +:+ path_str filepath))
    (λ e,
     logger_error ("Error exporting to CSV: " +:+ exn_str e);;
     raise e).

(** ** Runs of the program *)

(** What the menu loop asks of the tool. *)
Inductive command :=
| Lookup (domain : string)
| Display (result : option loc)
| ExportJson (filename : path)
| ExportCsv (filename : path).

Section Runs.

Variable whois_whois : nat → string → exn + whois.WhoisEntry.

(** The state a command leaves, whether it returns or raises (the loop
    reports an exception and goes on). *)
Definition exec (c : command) (s : state) : state :=
  match c with
  | Lookup d => (perform_whois_async whois_whois d s).2
  | Display r => (display_result r s).2
  | ExportJson p => (export_to_json p s).2
  | ExportCsv p => (export_to_csv p s).2
  end.

Definition exec_all (cs : list command) (s : state) : state :=
  foldl (λ s c, exec c s) s cs.

(** The states of a session: a new tool on some disk, then commands. *)
Inductive reachable : state → Prop :=
| reachable_init disk : reachable (init disk)
| reachable_exec c s : reachable s → reachable (exec c s).

(** [lookups ds]: the domains [ds] looked up one after the other; the
    results in call order. *)
Fixpoint lookups (ds : list string) : M (list (option loc)) :=
  match ds with
  | [] => mret []
  | d :: ds' =>
      r ← perform_whois_async whois_whois d;
      rs ← lookups ds';
      mret (r :: rs)
  end.

End Runs.

(** A collaborator for the examples: every domain is registered with IANA and
    active, except [nxdomain.invalid]. *)
Definition mock_whois (n : nat) (d : string) : exn + whois.WhoisEntry :=
  if decide (d = "nxdomain.invalid")
  then inl (OtherError "PywhoisError" "No match for domain")
  else inr (whois.mk_WhoisEntry (Some (Py.VStr "IANA")) None None None None
              (Some (Py.VList [Py.VStr "active"])) None None).

Definition disk0 : node := Dir [("notes.txt", File "keep")].


(** ** Vocabulary of the statements *)

Ltac unfold_M :=
  unfold perform_whois_async, _perform_whois_sync, lru_cache,
    perform_whois_sync_wrapped, whois_query, export_to_json, export_to_csv,
    display_result, writeheader, writerows, fs_call, f_write,
    try_except, raise, gets, set_cache, new_WhoisResult, results_append,
    print, logger_info, logger_error, logger_emit, mbind, M_bind, mret, M_ret.

(** The record a successful query for [d] builds. *)
Definition make_result (d : string) (data : whois.WhoisEntry) : WhoisResult :=
  mk_WhoisResult d (whois.registrar data) (whois.whois_server data)
    (whois.creation_date data) (whois.expiration_date data)
    (whois.updated_date data) (whois.status data) (whois.name_servers data)
    (whois.emails data).

Definition lookup_failed_msg (d : string) (e : exn) : string :=
  "Error during WHOIS lookup for " +:+ d +:+ ": " +:+ exn_str e.

(** Every cached record was built for the domain it is cached under. *)
Definition cache_sound (s : state) : Prop :=
  ∀ d l, (d, Some l) ∈ cache s → ∃ r, heap s !! l = Some r ∧ domain r = d.

(** Every reference of the list denotes an object. *)
Definition refs_valid (s : state) : Prop :=
  ∀ l, l ∈ results s → (l < length (heap s))%nat.

Record wf (s : state) : Prop := mk_wf {
  wf_cache_sound : cache_sound s;
  wf_refs_valid : refs_valid s;
  wf_cache_nodup : NoDup (cache s).*1
}.

(** What a computation that neither looks up nor stores leaves alone: the
    objects, the list, the cache and the count of queries. *)
Definition same_tool (s s' : state) : Prop :=
  heap s' = heap s ∧ results s' = results s ∧ cache s' = cache s
  ∧ queries s' = queries s.

Definition frame {A} (m : M A) : Prop := ∀ s, same_tool s (m s).2.

Create HintDb frame.

(** The number of distinct domains other than [D] in [ds]. *)
Definition distinct_others (D : string) (ds : list string) : nat :=
  length (remove_dups (filter (λ d, d ≠ D) ds)).

(** Fewer than [maxsize] distinct domains other than [D] occur in [acc]. *)
Definition bounded (D : string) (acc : list string) : Prop :=
  ∀ l, NoDup l → (∀ k, k ∈ l → k ∈ acc ∧ k ≠ D) → (length l < maxsize)%nat.

(** [D] is cached with [v], and only domains of [acc] have been used more
    recently. *)
Definition lru_inv {V} (D : string) (v : V) (acc : list string)
    (c : list (string * V)) : Prop :=
  NoDup c.*1
  ∧ ∃ pre post, c = pre ++ (D, v) :: post ∧ ∀ k, k ∈ pre.*1 → k ∈ acc.

(** The text of a CSV file: its rows one after the other. *)
Definition csv_text (rows : list (list (option string))) : string :=
  foldr (λ r t, csv.row r +:+ t) "" rows.

(** The lines [display_result] prints under the banner. *)
Definition console_items (d : dict (option string)) : list string :=
  omap (λ kv, match kv.2 with
              | Some value =>
                  if Py.truthy value then Some (display_line kv.1 value) else None
              | None => None
              end) d.

(** The state after [logger] emits a message. *)
Definition logged (lv : level) (msg : string) (s : state) : state :=
  (logger_emit lv msg s).2.

(** Both file-system steps of an export: the parent directories, then the
    file opened for writing. *)
Definition prepare (p : path) (n : node) : exn + node :=
  match mkdir_parents (parent p) n with
  | inr n1 => open_w p n1
  | inl e => inl e
  end.

(** The tree an export leaves when [prepare] fails: the directories made
    before a failing [open] stay. *)
Definition prepare_left (p : path) (n : node) : node :=
  match mkdir_parents (parent p) n with
  | inr n1 => n1
  | inl _ => n
  end.

(** An array of objects whose members are strings or [null]. *)
Definition flat_object (v : json.value) : bool :=
  match v with
  | json.Object members =>
      forallb (λ kv, match kv.2 with
                     | json.Str _ | json.Null => true
                     | _ => false
                     end) members
  | _ => false
  end.

Definition field_names : list string :=
  ["domain"; "registrar"; "whois_server"; "creation_date"; "expiration_date";
   "updated_date"; "status"; "name_servers"; "emails"].

(** The state after lines are printed. *)
Definition printed (lines : list string) (s : state) : state :=
  mk_state (heap s) (results s) (cache s) (queries s) (log s)
           (stdout s ++ lines) (fs s).

(** The state of the examples: one successful lookup on [disk0]. *)
Definition demo_state : state :=
  exec mock_whois (Lookup "example.com") (init disk0).

Definition demo_record : WhoisResult :=
  mk_WhoisResult "example.com" (Some (Py.VStr "IANA")) None None None None
    (Some (Py.VList [Py.VStr "active"])) None None.

(** [disk0] once [out/r.csv] (or [out/r.json]) is open for writing. *)
Definition disk0_open (name : string) : node :=
  Dir [("notes.txt", File "keep"); ("out", Dir [(name, File "")])].

(** [n] domain names [d0.example], [d1.example], ... *)
Definition some_domains (n : nat) : list string :=
  map (λ i, "d" +:+ pretty (N.of_nat i) +:+ ".example") (seq 0 n).

(** ** Vocabulary of the further properties *)

(** The collaborator answered a query for [d] with [data] (it raised on a
    query for [d]), among the queries [qs] made so far. *)
Definition answered (whois_whois : nat → string → exn + whois.WhoisEntry)
    (qs : list string) (d : string) (data : whois.WhoisEntry) : Prop :=
  ∃ n, qs !! n = Some d ∧ whois_whois n d = inr data.

Definition refused (whois_whois : nat → string → exn + whois.WhoisEntry)
    (qs : list string) (d : string) : Prop :=
  ∃ n e, qs !! n = Some d ∧ whois_whois n d = inl e.

(** Where records and cached failures come from. *)
Definition provenance (whois_whois : nat → string → exn + whois.WhoisEntry)
    (s : state) : Prop :=
  (∀ l r, heap s !! l = Some r →
     ∃ data, answered whois_whois (queries s) (domain r) data
             ∧ r = make_result (domain r) data)
  ∧ ∀ d, (d, None) ∈ cache s → refused whois_whois (queries s) d.

(** The domains [ds], looked up in this order, are the most recent entries
    of the cache. *)
Definition recent {V} (ds : list string) (c : list (string * V)) : Prop :=
  ∃ pre rest, c = pre ++ rest ∧ pre.*1 = rev ds.

(** A computation leaves the regular file at [q] as it is. *)
Definition keeps {A} (q : path) (m : M A) : Prop :=
  ∀ s t, read_file q (fs s) = Some t → read_file q (fs (m s).2) = Some t.

Create HintDb keeps.

(** ** The menu loop *)

(** [str.strip()]: the white space of Python at both ends is dropped.  The
    text is UTF-8; the white-space code points are U+0009 to U+000D, U+001C
    to U+0020, U+0085, U+00A0, U+1680, U+2000 to U+200A, U+2028, U+2029,
    U+202F, U+205F and U+3000. *)
Definition space3 (b1 b2 b3 : N) : bool :=
  ((b1 =? 225) && (b2 =? 154) && (b3 =? 128)
   || (b1 =? 226) && (b2 =? 128)
      && ((128 <=? b3) && (b3 <=? 138) || (b3 =? 168) || (b3 =? 169)
          || (b3 =? 175))
   || (b1 =? 226) && (b2 =? 129) && (b3 =? 159)
   || (b1 =? 227) && (b2 =? 128) && (b3 =? 128))%N.

Definition space2 (b1 b2 : N) : bool :=
  ((b1 =? 194) && ((b2 =? 133) || (b2 =? 160)))%N.

Definition space1 (b : N) : bool :=
  ((9 <=? b) && (b <=? 13) || (28 <=? b) && (b <=? 32))%N.

(** The text after one white-space code point at its head, if there is
    one. *)
Definition skip_space (s : string) : option string :=
  match s with
  | String c1 s1 =>
      if space1 (N_of_ascii c1) then Some s1
      else
        match s1 with
        | String c2 s2 =>
            if space2 (N_of_ascii c1) (N_of_ascii c2) then Some s2
            else
              match s2 with
              | String c3 s3 =>
                  if space3 (N_of_ascii c1) (N_of_ascii c2) (N_of_ascii c3)
                  then Some s3 else None
              | EmptyString => None
              end
        | EmptyString => None
        end
  | EmptyString => None
  end.

(** The same from the end, on the text reversed byte by byte. *)
Definition skip_space_rev (r : string) : option string :=
  match r with
  | String c3 r1 =>
      if space1 (N_of_ascii c3) then Some r1
      else
        match r1 with
        | String c2 r2 =>
            if space2 (N_of_ascii c2) (N_of_ascii c3) then Some r2
            else
              match r2 with
              | String c1 r3 =>
                  if space3 (N_of_ascii c1) (N_of_ascii c2) (N_of_ascii c3)
                  then Some r3 else None
              | EmptyString => None
              end
        | EmptyString => None
        end
  | EmptyString => None
  end.

Fixpoint skip_all (skip : string → option string) (fuel : nat) (s : string)
  : string :=
  match fuel with
  | 0 => s
  | S fuel' =>
      match skip s with
      | Some s' => skip_all skip fuel' s'
      | None => s
      end
  end.

Definition lstrip (s : string) : string :=
  skip_all skip_space (String.length s) s.

Definition rstrip (s : string) : string :=
  String.rev (skip_all skip_space_rev (String.length s) (String.rev s)).

Definition strip (s : string) : string := rstrip (lstrip s).

(** What [input] meets on the standard input: a line, or an interrupt
    (the call raises [KeyboardInterrupt]).  An empty list is the end of the
    input. *)
Inductive event :=
| Line (text : string)
| CtrlC.

(** How a computation of the loop ends: a value, an [Exception], or
    [KeyboardInterrupt], which [except Exception] does not catch. *)
Inductive signal (A : Type) :=
| Done (a : A)
| Failed (e : exn)
| Interrupted.
Arguments Done {A} a.
Arguments Failed {A} e.
Arguments Interrupted {A}.

Definition IO (A : Type) : Type :=
  list event → state → signal A * list event * state.

Instance IO_ret : MRet IO := λ A a inp s, (Done a, inp, s).
Instance IO_bind : MBind IO := λ A B f m inp s,
  match m inp s with
  | (Done a, inp', s') => f a inp' s'
  | (Failed e, inp', s') => (Failed e, inp', s')
  | (Interrupted, inp', s') => (Interrupted, inp', s')
  end.

(** A method of the tool, or a [print], inside the loop. *)
Definition lift {A} (m : M A) : IO A := λ inp s,
  match m s with
  | (Return a, s') => (Done a, inp, s')
  | (Raise e, s') => (Failed e, inp, s')
  end.

(** [input(prompt)]: the prompt is written, without a line break, and a
    line is read; at the end of the input [EOFError] is raised. *)
Definition input (prompt : string) : IO string := λ inp s,
  let s' := (print prompt s).2 in
  match inp with
  | Line text :: rest => (Done text, rest, s')
  | CtrlC :: rest => (Interrupted, rest, s')
  | [] => (Failed (OtherError "EOFError" "EOF when reading a line"), [], s')
  end.

(** [try: body / except KeyboardInterrupt: ... / except Exception as e: ...] *)
Definition try_main {A} (body : IO A) (on_interrupt : IO A)
    (on_exception : exn → IO A) : IO A := λ inp s,
  match body inp s with
  | (Done a, inp', s') => (Done a, inp', s')
  | (Interrupted, inp', s') => on_interrupt inp' s'
  | (Failed e, inp', s') => on_exception e inp' s'
  end.

(** The text of the menu; colour codes are left out, as in the banner. *)
Definition menu : string := "
██╗    ██╗██╗  ██╗ ██████╗ ██╗███████╗    ████████╗ ██████╗  ██████╗ ██╗     ███████╗
██║    ██║██║  ██║██╔═══██╗██║██╔════╝    ╚══██╔══╝██╔═══██╗██╔═══██╗██║     ██╔════╝
██║ █╗ ██║███████║██║   ██║██║███████╗       ██║   ██║   ██║██║   ██║██║     ███████╗
██║███╗██║██╔══██║██║   ██║██║╚════██║       ██║   ██║   ██║██║   ██║██║     ╚════██║
╚███╔███╔╝██║  ██║╚██████╔╝██║███████║       ██║   ╚██████╔╝╚██████╔╝███████╗███████║
 ╚══╝╚══╝ ╚═╝  ╚═╝ ╚═════╝ ╚═╝╚══════╝       ╚═╝    ╚═════╝  ╚═════╝ ╚══════╝╚══════╝
╔══════════════╗
║ OPTIONS MENU ║
╚══════════════╝
╔═════════════════════════╗
║ 1. Perform WHOIS Lookup ║
║ 2. Export to JSON       ║
║ 3. Export to CSV        ║
║ 4. Quit                 ║
╚═════════════════════════╝
".

(** What an iteration of [while True] does next. *)
Inductive flow := Next | Stop.

Section Main.

Variable whois_whois : nat → string → exn + whois.WhoisEntry.

(** [pathlib.Path(filename)], as the parts of the path. *)
Variable Path : string → path.

(** The body of the loop of [main]. *)
Definition main_body : IO flow :=
  try_main
    (lift (print menu);;
     line ← input "Choose an option: ";
     let choice := strip line in
     if decide (choice = "1") then
       line ← input "Enter domain name (e.g., example.com): ";
       let domain := strip line in
       result ← lift (perform_whois_async whois_whois domain);
       lift (display_result result);;
       mret Next
     else if decide (choice = "2") then
       line ← input "Enter JSON filename (e.g., results.json): ";
       let filename := strip line in
       lift (export_to_json (Path filename));;
       mret Next
     else if decide (choice = "3") then
       line ← input "Enter CSV filename (e.g., results.csv): ";
       let filename := strip line in
       lift (export_to_csv (Path filename));;
       mret Next
     else if decide (choice = "4") then
       lift (print "Thank you for using WHOIS Tool. Goodbye!");;
       mret Stop
     else
       lift (print "Invalid choice. Please try again.");;
       mret Next)
    (lift (print (String "010"%char "Operation cancelled by user."));;
     mret Stop)
    (λ e,
     lift (logger_error ("Unexpected error: " +:+ exn_str e));;
     lift (print ("An error occurred: " +:+ exn_str e));;
     mret Next).

(** [while True: ...], for at most [fuel] iterations; [None] when the loop
    is still running after them. *)
Fixpoint main_loop (fuel : nat) (inp : list event) (s : state)
  : option (signal unit * list event * state) :=
  match fuel with
  | 0 => None
  | S fuel' =>
      match main_body inp s with
      | (Done Next, inp', s') => main_loop fuel' inp' s'
      | (Done Stop, inp', s') => Some (Done tt, inp', s')
      | (Failed e, inp', s') => Some (Failed e, inp', s')
      | (Interrupted, inp', s') => Some (Interrupted, inp', s')
      end
  end.

(** [main()]: a new tool, then the loop. *)
Definition main (fuel : nat) (inp : list event) (disk : node)
  : option (signal unit * list event * state) :=
  main_loop fuel inp (init disk).

(** What an iteration reads: it ends the loop, or asks at most one thing
    of the tool that can change the tool or the disk. *)
Inductive turn :=
| Quit
| Cancelled
| Again (c : option command).

Definition read_argument (rest : list event) (c : string → command)
  : turn * list event :=
  match rest with
  | Line text :: rest' => (Again (Some (c (strip text))), rest')
  | CtrlC :: rest' => (Cancelled, rest')
  | [] => (Again None, [])
  end.

Definition read_turn (inp : list event) : turn * list event :=
  match inp with
  | Line text :: rest =>
      let choice := strip text in
      if decide (choice = "1") then read_argument rest Lookup
      else if decide (choice = "2") then
        read_argument rest (λ f, ExportJson (Path f))
      else if decide (choice = "3") then
        read_argument rest (λ f, ExportCsv (Path f))
      else if decide (choice = "4") then (Quit, rest)
      else (Again None, rest)
  | CtrlC :: rest => (Cancelled, rest)
  | [] => (Again None, [])
  end.

(** The lookups and exports a run of the loop is asked for, in order. *)
Fixpoint commands_of (inp : list event) : list command :=
  match inp with
  | Line text :: rest =>
      let choice := strip text in
      if decide (choice = "1") then
        match rest with
        | Line d :: rest' => Lookup (strip d) :: commands_of rest'
        | _ => []
        end
      else if decide (choice = "2") then
        match rest with
        | Line f :: rest' => ExportJson (Path (strip f)) :: commands_of rest'
        | _ => []
        end
      else if decide (choice = "3") then
        match rest with
        | Line f :: rest' => ExportCsv (Path (strip f)) :: commands_of rest'
        | _ => []
        end
      else if decide (choice = "4") then []
      else commands_of rest
  | _ => []
  end.

End Main.

(** The input holds nothing that ends the loop: no interrupt, and no line
    that reads [4]. *)
Definition no_exit (inp : list event) : Prop :=
  (CtrlC ∉ inp) ∧ ∀ text, Line text ∈ inp → strip text ≠ "4".

(** Two states with the same objects, list, cache, queries and disk: they
    differ at most in the log and in what was printed. *)
Definition agree (s t : state) : Prop :=
  heap s = heap t ∧ results s = results t ∧ cache s = cache t
  ∧ queries s = queries t ∧ fs s = fs t.

(** A computation whose outcome and whose effect on the tool and the disk
    do not depend on the log or on what was printed. *)
Definition blind {A} (m : M A) : Prop :=
  ∀ s t, agree s t → (m s).1 = (m t).1 ∧ agree (m s).2 (m t).2.

Create HintDb blind.

(** The parts of a relative file name without [..], as [pathlib] splits
    it: empty parts and [.] are dropped. *)
Fixpoint split_on (c : ascii) (s : string) : list string :=
  match s with
  | EmptyString => [""]
  | String a s' =>
      if Ascii.eqb a c then "" :: split_on c s'
      else
        match split_on c s' with
        | w :: ws => String a w :: ws
        | [] => [String a ""]
        end
  end.

Definition posix_parts (filename : string) : path :=
  filter (λ w, w ≠ "" ∧ w ≠ ".") (split_on "/"%char filename).

(** Whether the loop goes on after a turn, and what the turn asks of the
    tool. *)
Definition flow_of (t : turn) : flow :=
  match t with
  | Again _ => Next
  | Quit | Cancelled => Stop
  end.

Definition after_turn (whois_whois : nat → string → exn + whois.WhoisEntry)
    (t : turn) (s : state) : state :=
  match t with
  | Again (Some c) => exec whois_whois c s
  | _ => s
  end.

(** A session at the menu: a lookup, a CSV export, the choice to quit, and
    a line that is never read. *)
Definition demo_input : list event :=
  [Line " 1"; Line "example.com "; Line "3"; Line "out/r.csv"; Line "4";
   Line "unread"].

Definition demo_final : state :=
  match main_loop mock_whois posix_parts 4 demo_input (init disk0) with
  | Some (_, _, s') => s'
  | None => init disk0
  end.

(** * Properties *)

(** ** Dictionaries *)

Lemma dict_get_Some {V} k (v : V) c : dict_get k c = Some v → (k, v) ∈ c.
Proof.
  induction c as [|[k' v'] c IH]; simpl; [done|].
  case_decide; intros Hg.
  - simplify_eq. left.
  - right. auto.
Qed.

Lemma dict_get_None {V} k (c : dict V) : dict_get k c = None ↔ k ∉ c.*1.
Proof.
  induction c as [|[k' v'] c IH]; simpl.
  - split; [intros _; apply not_elem_of_nil | done].
  - case_decide as Hk.
    + subst k'. split; [done|]. intros H. exfalso. apply H. left.
    + rewrite IH, not_elem_of_cons. tauto.
Qed.

Lemma dict_get_NoDup {V} k (v : V) c :
  NoDup c.*1 → (k, v) ∈ c → dict_get k c = Some v.
Proof.
  induction c as [|[k' v'] c IH]; simpl; intros Hnd Hin.
  - by apply elem_of_nil in Hin.
  - apply NoDup_cons in Hnd as [Hk Hnd].
    apply elem_of_cons in Hin as [Heq|Hin].
    + injection Heq as -> ->. by rewrite decide_True.
    + case_decide as Hd; [|by auto]. subst k'.
      exfalso. apply Hk. by apply (list_elem_of_fmap_2 fst) in Hin.
Qed.

(** ** The three cases of a lookup *)

Section LookupEquations.

Variable whois_whois : nat → string → exn + whois.WhoisEntry.

(** A lookup of a cached domain: the cached result, moved to the most
    recently used end; nothing else changes. *)
Lemma sync_hit d v s :
  cache_get d (cache s) = Some v →
  _perform_whois_sync whois_whois d s
  = (Return v,
     mk_state (heap s) (results s) (cache_touch d v (cache s)) (queries s)
              (log s) (stdout s) (fs s)).
Proof. intros H. unfold_M. simpl. by rewrite H. Qed.

(** A lookup of a domain that is not cached and that the collaborator
    answers: a new record, appended to the list and cached. *)
Lemma sync_miss_ok d data s :
  cache_get d (cache s) = None →
  whois_whois (length (queries s)) d = inr data →
  _perform_whois_sync whois_whois d s
  = (Return (Some (length (heap s))),
     mk_state (heap s ++ [make_result d data])
              (results s ++ [length (heap s)])
              (cache_put d (Some (length (heap s))) (cache s))
              (queries s ++ [d])
              ((log s ++ [(INFO, "Performing WHOIS lookup for: " +:+ d)])
                 ++ [(INFO, "WHOIS lookup successful for " +:+ d)])
              (stdout s) (fs s)).
Proof.
  intros H Hq. unfold_M. simpl. rewrite H. simpl. rewrite Hq. simpl.
  by rewrite H.
Qed.

(** A lookup of a domain that is not cached and for which the collaborator
    raises: [None], which is cached as well. *)
Lemma sync_miss_fail d e s :
  cache_get d (cache s) = None →
  whois_whois (length (queries s)) d = inl e →
  _perform_whois_sync whois_whois d s
  = (Return None,
     mk_state (heap s) (results s) (cache_put d None (cache s))
              (queries s ++ [d])
              ((log s ++ [(INFO, "Performing WHOIS lookup for: " +:+ d)])
                 ++ [(ERROR, lookup_failed_msg d e)])
              (stdout s) (fs s)).
Proof.
  intros H Hq. unfold_M. simpl. rewrite H. simpl. rewrite Hq. simpl.
  by rewrite H.
Qed.

Lemma lookup_cases d s :
  (∃ v, cache_get d (cache s) = Some v)
  ∨ (cache_get d (cache s) = None
     ∧ ∃ data, whois_whois (length (queries s)) d = inr data)
  ∨ (cache_get d (cache s) = None
     ∧ ∃ e, whois_whois (length (queries s)) d = inl e).
Proof.
  destruct (cache_get d (cache s)) as [v|] eqn:Hc; [by eauto|].
  destruct (whois_whois (length (queries s)) d) as [e|data] eqn:Hq; eauto.
Qed.

(** The decorated method never raises, so the handler of
    [perform_whois_async] is not entered. *)
Lemma sync_returns d s :
  ∃ r s', _perform_whois_sync whois_whois d s = (Return r, s').
Proof.
  destruct (lookup_cases d s) as [[v H]|[[H [data Hq]]|[H [e Hq]]]].
  - rewrite (sync_hit _ _ _ H). eauto.
  - rewrite (sync_miss_ok _ _ _ H Hq). eauto.
  - rewrite (sync_miss_fail _ _ _ H Hq). eauto.
Qed.

Lemma async_sync d s :
  perform_whois_async whois_whois d s = _perform_whois_sync whois_whois d s.
Proof.
  destruct (sync_returns d s) as (r & s' & H).
  unfold perform_whois_async, try_except. by rewrite H.
Qed.

End LookupEquations.

(** ** Computations that leave the tool alone *)

Lemma same_tool_refl s : same_tool s s.
Proof. by repeat split. Qed.

Lemma same_tool_trans s1 s2 s3 :
  same_tool s1 s2 → same_tool s2 s3 → same_tool s1 s3.
Proof. unfold same_tool. intros (?&?&?&?) (?&?&?&?). repeat split; congruence. Qed.

Lemma frame_ret {A} (a : A) : frame (mret a).
Proof. intros s. apply same_tool_refl. Qed.

Lemma frame_raise {A} e : frame (@raise A e).
Proof. intros s. apply same_tool_refl. Qed.

Lemma frame_gets {A} (f : state → A) : frame (gets f).
Proof. intros s. apply same_tool_refl. Qed.

Lemma frame_bind {A B} (m : M A) (k : A → M B) :
  frame m → (∀ a, frame (k a)) → frame (m ≫= k).
Proof.
  intros Hm Hk s. unfold mbind, M_bind. specialize (Hm s).
  destruct (m s) as [[a|e] s1]; simpl in *; [|done].
  eapply same_tool_trans; [exact Hm | apply Hk].
Qed.

Lemma frame_try_except {A} (m : M A) (h : exn → M A) :
  frame m → (∀ e, frame (h e)) → frame (try_except m h).
Proof.
  intros Hm Hh s. unfold try_except. specialize (Hm s).
  destruct (m s) as [[a|e] s1]; simpl in *; [done|].
  eapply same_tool_trans; [exact Hm | apply Hh].
Qed.

Lemma frame_logger_emit lv msg : frame (logger_emit lv msg).
Proof. intros s. by repeat split. Qed.

Lemma frame_print line : frame (print line).
Proof. intros s. by repeat split. Qed.

Lemma frame_fs_call op : frame (fs_call op).
Proof. intros s. unfold fs_call. by destruct (op (fs s)). Qed.

Lemma frame_f_write f text : frame (f_write f text).
Proof. intros s. by repeat split. Qed.

Lemma frame_for_each {A} (xs : list A) (body : A → M unit) :
  (∀ x, frame (body x)) → frame (for_each xs body).
Proof.
  intros Hb. induction xs as [|x xs IH]; simpl.
  - apply frame_ret.
  - apply frame_bind; auto.
Qed.

Lemma frame_writerow f fieldnames rowdict : frame (writerow f fieldnames rowdict).
Proof.
  unfold writerow. destruct (csv.dict_to_list _ _);
    [apply frame_raise | apply frame_f_write].
Qed.

#[local] Hint Resolve frame_ret frame_raise frame_gets frame_logger_emit
  frame_print frame_fs_call frame_f_write frame_writerow : frame.
#[local] Hint Extern 1 (frame (logger_info _)) => apply frame_logger_emit : frame.
#[local] Hint Extern 1 (frame (logger_error _)) => apply frame_logger_emit : frame.
#[local] Hint Extern 2 (frame (_ ≫= _)) => apply frame_bind; [|intros ?] : frame.
#[local] Hint Extern 2 (frame (try_except _ _)) =>
  apply frame_try_except; [|intros ?] : frame.
#[local] Hint Extern 2 (frame (for_each _ _)) =>
  apply frame_for_each; intros ? : frame.
#[local] Hint Extern 3 (frame (match ?x with _ => _ end)) => destruct x : frame.

Lemma frame_display_result r : frame (display_result r).
Proof. unfold display_result, display_items. auto 20 with frame. Qed.

Lemma frame_export_to_json p : frame (export_to_json p).
Proof. unfold export_to_json. auto 20 with frame. Qed.

Lemma frame_export_to_csv p : frame (export_to_csv p).
Proof. unfold export_to_csv, writeheader, writerows. auto 30 with frame. Qed.

(** ** The cache *)

Lemma sublist_removelast {A} (l : list A) : removelast l `sublist_of` l.
Proof. rewrite removelast_firstn_len. apply sublist_take. Qed.

Lemma cache_touch_sublist {V} k (v : V) c :
  (k, v) ∈ c → ∀ e, e ∈ cache_touch k v c → e ∈ c.
Proof.
  intros Hin e [->|He]%elem_of_cons; [done|].
  by apply list_elem_of_filter in He as [_ ?].
Qed.

Lemma cache_put_elem {V} k (v : V) c e :
  e ∈ cache_put k v c → e = (k, v) ∨ e ∈ c.
Proof.
  unfold cache_put. intros [->|He]%elem_of_cons; [by left|right].
  case_decide; [|done]. eapply elem_of_sublist; [exact He|].
  apply sublist_removelast.
Qed.

Lemma cache_touch_NoDup {V} k (v : V) (c : list (string * V)) :
  NoDup c.*1 → NoDup (cache_touch k v c).*1.
Proof.
  intros Hnd. unfold cache_touch. rewrite fmap_cons. apply NoDup_cons. split.
  - intros ([k' v'] & Hk & Hin)%list_elem_of_fmap. simpl in Hk. subst k'.
    apply list_elem_of_filter in Hin as [Hne _]. by apply Hne.
  - eapply sublist_NoDup; [exact Hnd|]. apply fmap_sublist, sublist_filter.
Qed.

Lemma cache_put_NoDup {V} k (v : V) (c : list (string * V)) :
  cache_get k c = None → NoDup c.*1 → NoDup (cache_put k v c).*1.
Proof.
  intros Hk%dict_get_None Hnd.
  assert (Hsub : (if decide (maxsize ≤ length c)%nat then removelast c else c).*1
                 `sublist_of` c.*1).
  { apply fmap_sublist. case_decide; [apply sublist_removelast|done]. }
  unfold cache_put. rewrite fmap_cons. apply NoDup_cons. split.
  - intros Hin. apply Hk. eapply elem_of_sublist; [exact Hin|exact Hsub].
  - eapply sublist_NoDup; [exact Hnd|exact Hsub].
Qed.

(** ** The invariant of a session *)

Section Invariant.

Variable whois_whois : nat → string → exn + whois.WhoisEntry.

Lemma wf_init disk : wf (init disk).
Proof.
  split.
  - intros d l Hin. by apply elem_of_nil in Hin.
  - intros l Hin. by apply elem_of_nil in Hin.
  - constructor.
Qed.

Lemma wf_same_tool s s' : same_tool s s' → wf s → wf s'.
Proof.
  intros (Hh & Hr & Hc & _) [H1 H2 H3]. split.
  - intros d l. rewrite Hc, Hh. apply H1.
  - intros l. rewrite Hr, Hh. apply H2.
  - by rewrite Hc.
Qed.

Lemma wf_lookup d s :
  wf s → wf (perform_whois_async whois_whois d s).2.
Proof.
  intros [H1 H2 H3]. rewrite async_sync.
  destruct (lookup_cases whois_whois d s) as [[v H]|[[H [data Hq]]|[H [e Hq]]]].
  - rewrite (sync_hit _ _ _ _ H). split; unfold cache_sound, refs_valid; cbn [cache heap results snd].
    + intros d' l Hin. apply H1.
      apply (cache_touch_sublist d v (cache s)); [by apply dict_get_Some|done].
    + done.
    + by apply (cache_touch_NoDup d v).
  - rewrite (sync_miss_ok _ _ _ _ H Hq). split; unfold cache_sound, refs_valid; cbn [cache heap results snd].
    + intros d' l [Heq|Hin]%cache_put_elem.
      * injection Heq as -> ->. exists (make_result d data). split; [|done].
        by rewrite lookup_app_r, Nat.sub_diag.
      * destruct (H1 _ _ Hin) as (r & Hr & Hd). exists r. split; [|done].
        by apply lookup_app_l_Some.
    + intros l [Hin| ->%list_elem_of_singleton]%elem_of_app;
        rewrite length_app; simpl; [|lia].
      specialize (H2 _ Hin). lia.
    + by apply cache_put_NoDup.
  - rewrite (sync_miss_fail _ _ _ _ H Hq). split; unfold cache_sound, refs_valid; cbn [cache heap results snd].
    + intros d' l [Heq|Hin]%cache_put_elem; [done|]. by apply H1.
    + done.
    + by apply cache_put_NoDup.
Qed.

Lemma wf_exec c s : wf s → wf (exec whois_whois c s).
Proof.
  destruct c as [d|r|p|p]; simpl.
  - apply wf_lookup.
  - apply wf_same_tool, frame_display_result.
  - apply wf_same_tool, frame_export_to_json.
  - apply wf_same_tool, frame_export_to_csv.
Qed.

Lemma reachable_wf s : reachable whois_whois s → wf s.
Proof. induction 1; [apply wf_init | by apply wf_exec]. Qed.

(** In a session every reference of the list denotes a record: the records
    are as many as the references. *)
Lemma records_length s : refs_valid s → length (records s) = length (results s).
Proof.
  unfold records, refs_valid. generalize (results s) as ls.
  induction ls as [|l ls IH]; intros Hv; [done|]. simpl.
  destruct (lookup_lt_is_Some_2 (heap s) l) as [r Hr].
  { apply Hv. left. }
  rewrite Hr. simpl. f_equal. apply IH. intros l' Hin. apply Hv. by right.
Qed.

End Invariant.

(** ** Least-recently-used eviction keeps a recent entry *)

Lemma bounded_mono D acc acc' :
  (∀ k, k ∈ acc → k ∈ acc') → bounded D acc' → bounded D acc.
Proof.
  intros Hsub Hb l Hnd Hl. apply Hb; [done|].
  intros k Hk. destruct (Hl k Hk). auto.
Qed.

Lemma distinct_others_bounded D ds :
  (distinct_others D ds < maxsize)%nat → bounded D ds.
Proof.
  unfold distinct_others. intros Hlt l Hnd Hl.
  eapply Nat.le_lt_trans; [|exact Hlt].
  apply submseteq_length, NoDup_submseteq; [done|].
  intros k Hk. destruct (Hl k Hk) as [Hin Hne].
  apply elem_of_remove_dups, list_elem_of_filter. done.
Qed.

Lemma lru_inv_get {V} D (v : V) acc c : lru_inv D v acc c → cache_get D c = Some v.
Proof.
  intros (Hnd & pre & post & -> & _). apply dict_get_NoDup; [done|].
  apply elem_of_app. right. left.
Qed.

Lemma lru_inv_front {V} D (v : V) c acc :
  NoDup ((D, v) :: c).*1 → lru_inv D v acc ((D, v) :: c).
Proof.
  intros Hnd. split; [done|]. exists [], c. split; [done|].
  intros k Hk. by apply elem_of_nil in Hk.
Qed.

(** A hit on some domain [d] keeps the entry of [D]. *)
Lemma lru_inv_touch {V} D (v w : V) acc d c :
  lru_inv D v acc c → cache_get d c = Some w →
  lru_inv D v (d :: acc) (cache_touch d w c)
  ∧ (d = D → w = v).
Proof.
  intros Hinv Hget. pose proof (lru_inv_get _ _ _ _ Hinv) as HD.
  destruct Hinv as (Hnd & pre & post & -> & Hpre).
  split; [|intros ->; congruence].
  split; [by apply cache_touch_NoDup|].
  destruct (decide (d = D)) as [->|Hne].
  - exists [], (filter (λ e, e.1 ≠ D) (pre ++ (D, v) :: post)).
    split; [|intros k Hk; by apply elem_of_nil in Hk].
    unfold cache_touch. simpl. congruence.
  - exists ((d, w) :: filter (λ e, e.1 ≠ d) pre), (filter (λ e, e.1 ≠ d) post).
    split.
    + unfold cache_touch. rewrite filter_app, filter_cons_True by (simpl; congruence).
      done.
    + intros k. rewrite fmap_cons. intros [->|Hk]%elem_of_cons; [left|right].
      apply Hpre. eapply elem_of_sublist; [exact Hk|].
      apply fmap_sublist, sublist_filter.
Qed.

(** A miss on [d] evicts the entry of [D] only when [maxsize] other domains
    were used since. *)
Lemma lru_inv_put {V} D (v w : V) acc d c :
  lru_inv D v acc c → cache_get d c = None → bounded D (d :: acc) →
  lru_inv D v (d :: acc) (cache_put d w c).
Proof.
  intros Hinv Hget Hb. split.
  { apply cache_put_NoDup; [done|]. apply Hinv. }
  destruct Hinv as (Hnd & pre & post & -> & Hpre).
  apply dict_get_None in Hget.
  assert (HdD : d ≠ D).
  { intros ->. apply Hget. rewrite fmap_app, fmap_cons. apply elem_of_app.
    right. left. }
  assert (Hd_pre : d ∉ pre.*1).
  { intros Hin. apply Hget. rewrite fmap_app. apply elem_of_app. by left. }
  assert (HD_pre : D ∉ pre.*1).
  { rewrite fmap_app, fmap_cons in Hnd. apply NoDup_app in Hnd as (_ & Hdis & _).
    intros Hin. apply (Hdis _ Hin). left. }
  assert (Hnd_pre : NoDup pre.*1).
  { rewrite fmap_app in Hnd. by apply NoDup_app in Hnd as (? & _ & _). }
  assert (Hpre' : ∀ k, k ∈ ((d, w) :: pre).*1 → k ∈ d :: acc).
  { intros k. rewrite fmap_cons. intros [->|Hk]%elem_of_cons; [left|right; auto]. }
  unfold cache_put. case_decide as Hfull.
  - destruct post as [|e post].
    + exfalso. rewrite length_app in Hfull. simpl in Hfull.
      assert (length (d :: pre.*1) < maxsize)%nat as Hlt.
      { apply Hb.
        - by apply NoDup_cons.
        - intros k Hk. split; [by apply Hpre'|].
          apply elem_of_cons in Hk as [->|Hk]; [done|]. by intros ->. }
      simpl in Hlt. rewrite length_fmap in Hlt. lia.
    + exists ((d, w) :: pre), (removelast (e :: post)). split; [|done].
      rewrite removelast_app by done. simpl. done.
  - exists ((d, w) :: pre), post. done.
Qed.

Section Lru.

Variable whois_whois : nat → string → exn + whois.WhoisEntry.

(** After any lookup of [D] its result is the most recent entry. *)
Lemma lookup_caches D s :
  NoDup (cache s).*1 →
  ∃ r s', perform_whois_async whois_whois D s = (Return r, s')
          ∧ lru_inv D r [] (cache s').
Proof.
  intros Hnd. rewrite async_sync.
  destruct (lookup_cases whois_whois D s) as [[v H]|[[H [data Hq]]|[H [e Hq]]]].
  - rewrite (sync_hit _ _ _ _ H). eexists _, _. split; [done|].
    apply lru_inv_front. by apply (cache_touch_NoDup D v).
  - rewrite (sync_miss_ok _ _ _ _ H Hq). eexists _, _. split; [done|].
    apply lru_inv_front. by apply cache_put_NoDup.
  - rewrite (sync_miss_fail _ _ _ _ H Hq). eexists _, _. split; [done|].
    apply lru_inv_front. by apply cache_put_NoDup.
Qed.

Lemma lookup_keeps D v acc d s :
  lru_inv D v acc (cache s) → bounded D (d :: acc) →
  ∃ r s', perform_whois_async whois_whois d s = (Return r, s')
          ∧ lru_inv D v (d :: acc) (cache s').
Proof.
  intros Hinv Hb. rewrite async_sync.
  destruct (lookup_cases whois_whois d s) as [[w H]|[[H [data Hq]]|[H [e Hq]]]].
  - rewrite (sync_hit _ _ _ _ H). eexists _, _. split; [done|].
    by apply lru_inv_touch.
  - rewrite (sync_miss_ok _ _ _ _ H Hq). eexists _, _. split; [done|].
    by apply lru_inv_put.
  - rewrite (sync_miss_fail _ _ _ _ H Hq). eexists _, _. split; [done|].
    by apply lru_inv_put.
Qed.

Lemma lookups_keep D v ds : ∀ acc s,
  lru_inv D v acc (cache s) → bounded D (acc ++ ds) →
  ∃ outs s', lookups whois_whois ds s = (Return outs, s')
             ∧ lru_inv D v (rev ds ++ acc) (cache s').
Proof.
  induction ds as [|d ds IH]; intros acc s Hinv Hb.
  - eexists _, _. split; [reflexivity|done].
  - destruct (lookup_keeps D v acc d s) as (r & s1 & Hr & Hinv1); [done| |].
    { eapply bounded_mono; [|exact Hb]. intros k.
      rewrite elem_of_cons, elem_of_app, elem_of_cons. tauto. }
    destruct (IH (d :: acc) s1) as (outs & s2 & Hrun & Hinv2); [done| |].
    { eapply bounded_mono; [|exact Hb]. intros k.
      rewrite !elem_of_app, !elem_of_cons. tauto. }
    exists (r :: outs), s2. split.
    + simpl. unfold mbind, M_bind. rewrite Hr, Hrun. done.
    + simpl. by rewrite <- app_assoc.
Qed.

End Lru.

(** ** Lookups of domains that are not cached *)

Lemma cache_put_get_other {V} d d' (v : V) c :
  d' ≠ d → cache_get d' c = None → cache_get d' (cache_put d v c) = None.
Proof.
  intros Hne Hget%dict_get_None. apply dict_get_None.
  intros ([k w] & Hk & [Heq|Hin]%cache_put_elem)%list_elem_of_fmap;
    simpl in Hk; subst k.
  - by injection Heq as -> _.
  - apply Hget. by apply (list_elem_of_fmap_2 fst) in Hin.
Qed.

Lemma omap_lookup_snoc {A} (h : list A) (x : A) (ls : list nat) :
  (∀ l, l ∈ ls → l < length h) →
  omap (λ l, (h ++ [x]) !! l) ls = omap (λ l, h !! l) ls.
Proof.
  induction ls as [|l ls IH]; intros Hv; [done|].
  cbn [omap list_omap]. rewrite lookup_app_l by (apply Hv; left).
  rewrite IH; [done|]. intros l' Hl'. apply Hv. by right.
Qed.

Lemma records_snoc h r ls c q lg out disk :
  (∀ l, l ∈ ls → l < length h) →
  records (mk_state (h ++ [r]) (ls ++ [length h]) c q lg out disk)
  = omap (λ l, h !! l) ls ++ [r].
Proof.
  intros Hv. unfold records. cbn [heap results].
  rewrite omap_app, omap_lookup_snoc by done. f_equal.
  cbn [omap list_omap]. by rewrite lookup_app_r, Nat.sub_diag.
Qed.

Section Fresh.

Variable whois_whois : nat → string → exn + whois.WhoisEntry.

Lemma lookups_fresh ds : ∀ s,
  NoDup ds → (∀ d, d ∈ ds → cache_get d (cache s) = None) → wf s →
  ∃ outs s',
    lookups whois_whois ds s = (Return outs, s')
    ∧ length outs = length ds
    ∧ results s' = results s ++ omap id outs
    ∧ (Forall is_Some outs →
       map domain (records s') = map domain (records s) ++ ds).
Proof.
  induction ds as [|d ds IH]; intros s Hnd Hfresh Hwf.
  - exists [], s. repeat split; simpl; by rewrite ?app_nil_r.
  - apply NoDup_cons in Hnd as [Hd Hnd].
    assert (Hmiss : cache_get d (cache s) = None) by (apply Hfresh; left).
    pose proof (wf_lookup whois_whois d s Hwf) as Hwf1.
    rewrite async_sync in Hwf1.
    assert (Hstep : ∀ r s1,
      _perform_whois_sync whois_whois d s = (Return r, s1) →
      cache s1 = cache_put d r (cache s) →
      results s1 = results s ++ omap id [r] →
      (is_Some r → map domain (records s1) = map domain (records s) ++ [d]) →
      ∃ outs s',
        lookups whois_whois (d :: ds) s = (Return outs, s')
        ∧ length outs = length (d :: ds)
        ∧ results s' = results s ++ omap id outs
        ∧ (Forall is_Some outs →
           map domain (records s') = map domain (records s) ++ d :: ds)).
    { intros r s1 Hrun Hc Hres Hdom. rewrite Hrun in Hwf1.
      destruct (IH s1) as (outs & s' & Hrest & Hlen & Hres' & Hdom');
        [done| |done|].
      { intros d' Hd'. rewrite Hc. apply cache_put_get_other.
        - intros ->. done.
        - apply Hfresh. by right. }
      exists (r :: outs), s'. split; [|split; [|split]].
      - simpl. unfold mbind, M_bind. by rewrite async_sync, Hrun, Hrest.
      - simpl. by rewrite Hlen.
      - rewrite Hres', Hres, <- app_assoc. f_equal.
        by destruct r.
      - intros [Hr Houts]%Forall_cons.
        rewrite Hdom' by done. rewrite Hdom by done.
        by rewrite <- app_assoc. }
    destruct (lookup_cases whois_whois d s) as [[v H]|[[H [data Hq]]|[H [e Hq]]]].
    + congruence.
    + eapply Hstep; [apply (sync_miss_ok _ _ _ _ H Hq)|done|done|].
      intros _. rewrite records_snoc by apply Hwf.
      by rewrite map_app.
    + eapply Hstep; [apply (sync_miss_fail _ _ _ _ H Hq)|done| |].
      * simpl. by rewrite app_nil_r.
      * by intros [? ?].
Qed.

End Fresh.

(** ** The file system *)

Lemma entry_lookup_update c n es : entry_lookup c (entry_update c n es) = Some n.
Proof.
  induction es as [|[c' n'] es IH]; simpl.
  - by rewrite decide_True.
  - case_decide; simpl; [by rewrite decide_True|]. by rewrite decide_False.
Qed.

Lemma open_from_lookup whole p : ∀ n n',
  open_from whole p n = inr n' → fs_lookup p n' = Some (File "").
Proof.
  induction p as [|c p IH]; intros n n' Hopen.
  - destruct n; simpl in Hopen; by simplify_eq.
  - destruct n as [text|es]; simpl in Hopen; [done|].
    destruct (entry_lookup c es) as [child|] eqn:Hc.
    + destruct (open_from whole p child) as [e|child'] eqn:Hrec; [done|].
      simplify_eq. simpl. rewrite entry_lookup_update. simpl. by eapply IH.
    + destruct p; [|done]. simplify_eq. simpl.
      by rewrite entry_lookup_update.
Qed.

Lemma write_at_lookup text p : ∀ n old,
  fs_lookup p n = Some (File old) →
  fs_lookup p (write_at p text n) = Some (File (old +:+ text)).
Proof.
  induction p as [|c p IH]; intros n old Hn; simpl in *.
  - by simplify_eq.
  - destruct n as [?|es]; [done|].
    destruct (entry_lookup c es) as [child|] eqn:Hc; [|done]. simpl in *.
    rewrite entry_lookup_update. simpl. by apply IH.
Qed.

Lemma mkdir_from_OSError whole p : ∀ n e,
  mkdir_from whole p n = inl e → is_OSError e = true.
Proof.
  induction p as [|c p IH]; intros n e H.
  - destruct n; simpl in H; by simplify_eq.
  - destruct n as [?|es]; simpl in H; [by simplify_eq|].
    destruct (entry_lookup c es) as [child|]; [|done].
    destruct (mkdir_from whole p child) as [e'|] eqn:Hrec; [|done].
    simplify_eq. by eapply IH.
Qed.

Lemma open_from_OSError whole p : ∀ n e,
  open_from whole p n = inl e → is_OSError e = true.
Proof.
  induction p as [|c p IH]; intros n e H.
  - destruct n; simpl in H; by simplify_eq.
  - destruct n as [?|es]; simpl in H; [by simplify_eq|].
    destruct (entry_lookup c es) as [child|].
    + destruct (open_from whole p child) as [e'|] eqn:Hrec; [|done].
      simplify_eq. by eapply IH.
    + destruct p; by simplify_eq.
Qed.

Lemma prepare_OSError p n e : prepare p n = inl e → is_OSError e = true.
Proof.
  unfold prepare, mkdir_parents, open_w.
  destruct (mkdir_from _ _ n) as [e'|n1] eqn:Hm.
  - intros ?; simplify_eq. by eapply mkdir_from_OSError.
  - apply open_from_OSError.
Qed.

Lemma prepare_lookup p n n' : prepare p n = inr n' → read_file p n' = Some "".
Proof.
  unfold prepare, open_w, read_file.
  destruct (mkdir_parents _ n); [done|].
  intros H%open_from_lookup. by rewrite H.
Qed.

(** ** The exports, case by case *)

(** The directories cannot be made or the file cannot be opened: the error
    is logged and raised again. *)
Lemma export_to_json_io_error p s e :
  prepare p (fs s) = inl e →
  export_to_json p s
  = (Raise e,
     logged ERROR ("Error exporting to JSON: " +:+ exn_str e)
       (set_fs (prepare_left p (fs s)) s)).
Proof.
  unfold prepare, prepare_left. unfold_M. simpl.
  destruct (mkdir_parents (parent p) (fs s)) as [e1|n1]; simpl.
  - intros ?; by simplify_eq.
  - intros ->. done.
Qed.

Lemma export_to_json_ok p s n :
  prepare p (fs s) = inr n →
  export_to_json p s
  = (Return tt,
     logged INFO ("Results exported to JSON: " +:+ path_str p)
       (set_fs (write_at p (json.dumps (json.of_list (map to_dict (records s)))) n)
               s)).
Proof.
  unfold prepare. unfold_M. simpl.
  destruct (mkdir_parents (parent p) (fs s)) as [e1|n1]; simpl; [done|].
  intros ->. done.
Qed.

Lemma export_to_csv_io_error p s e :
  prepare p (fs s) = inl e →
  export_to_csv p s
  = (Raise e,
     logged ERROR ("Error exporting to CSV: " +:+ exn_str e)
       (set_fs (prepare_left p (fs s)) s)).
Proof.
  unfold prepare, prepare_left. unfold_M. simpl.
  destruct (mkdir_parents (parent p) (fs s)) as [e1|n1]; simpl.
  - intros ?; by simplify_eq.
  - intros ->. done.
Qed.

(** The file is open, and only then the empty list is noticed. *)
Lemma export_to_csv_empty p s n :
  results s = [] → prepare p (fs s) = inr n →
  export_to_csv p s
  = (Raise (ValueError "No results to export"),
     logged ERROR "Error exporting to CSV: No results to export" (set_fs n s)).
Proof.
  unfold prepare. intros Hres. unfold_M. simpl.
  destruct (mkdir_parents (parent p) (fs s)) as [e1|n1]; simpl; [done|].
  intros ->. simpl. by rewrite Hres.
Qed.

(** ** Text written piece by piece *)

Lemma string_app_cons a s t : String a s +:+ t = String a (s +:+ t).
Proof. reflexivity. Qed.

Lemma string_app_nil_r s : s +:+ "" = s.
Proof. induction s as [|a s IH]; [done|]. by rewrite string_app_cons, IH. Qed.

Lemma string_app_assoc s t u : (s +:+ t) +:+ u = s +:+ (t +:+ u).
Proof. induction s as [|a s IH]; [done|]. by rewrite !string_app_cons, IH. Qed.

Lemma set_fs_same s : set_fs (fs s) s = s.
Proof. by destruct s. Qed.

Lemma set_fs_set_fs n n' s : set_fs n' (set_fs n s) = set_fs n' s.
Proof. done. Qed.

Lemma keys_to_dict r : keys (to_dict r) = field_names.
Proof. reflexivity. Qed.

Lemma dict_to_list_header :
  csv.dict_to_list field_names (zip field_names (map Some field_names))
  = inr (map Some field_names).
Proof. reflexivity. Qed.

Lemma dict_to_list_to_dict r :
  csv.dict_to_list field_names (to_dict r) = inr (map snd (to_dict r)).
Proof. reflexivity. Qed.

Lemma writerow_ok f names rowdict cells s :
  csv.dict_to_list names rowdict = inr cells →
  writerow f names rowdict s
  = (Return tt, set_fs (write_at f (csv.row cells) (fs s)) s).
Proof. intros H. unfold writerow. by rewrite H. Qed.

Lemma writerows_to_dict f rs : ∀ s old,
  fs_lookup f (fs s) = Some (File old) →
  ∃ n, writerows f field_names (map to_dict rs) s = (Return tt, set_fs n s)
       ∧ fs_lookup f n
         = Some (File (old +:+ csv_text (map (λ r, map snd (to_dict r)) rs))).
Proof.
  unfold writerows.
  induction rs as [|r rs IH]; intros s old Hold.
  - exists (fs s). simpl. by rewrite set_fs_same, string_app_nil_r.
  - cbn [map for_each]. unfold mbind, M_bind.
    rewrite (writerow_ok _ _ _ _ _ (dict_to_list_to_dict r)).
    edestruct (IH (set_fs (write_at f (csv.row (map snd (to_dict r))) (fs s)) s))
      as (n & Hrun & Hn).
    { cbn [fs set_fs]. by apply write_at_lookup. }
    exists n. rewrite Hrun. split; [done|].
    rewrite Hn. cbn [csv_text foldr]. by rewrite string_app_assoc.
Qed.

(** The list is not empty and the file is open: the header, then the rows. *)
Lemma export_to_csv_ok p s n r0 rest :
  results s ≠ [] → records s = r0 :: rest → prepare p (fs s) = inr n →
  ∃ n',
    export_to_csv p s
    = (Return tt,
       logged INFO ("Results exported to CSV: " +:+ path_str p) (set_fs n' s))
    ∧ read_file p n'
      = Some (csv_text (map Some (keys (to_dict r0))
                          :: map (λ r, map snd (to_dict r)) (records s))).
Proof.
  intros Hne Hrecs Hprep.
  pose proof (prepare_lookup _ _ _ Hprep) as Hread.
  unfold read_file in Hread.
  destruct (fs_lookup p n) as [[text|?]|] eqn:Hlook; simplify_eq.
  edestruct (writerows_to_dict p (records s)
               (set_fs (write_at p (csv.row (map Some field_names)) n) s))
    as (n' & Hrows & Hn').
  { cbn [fs set_fs]. by apply write_at_lookup. }
  exists n'. split.
  - unfold prepare in Hprep. unfold export_to_csv, try_except, mbind, M_bind,
      fs_call, gets.
    destruct (mkdir_parents (parent p) (fs s)) as [e1|n1]; [done|].
    cbn [fs set_fs]. rewrite Hprep.
    cbn [results set_fs]. destruct (results s) as [|l0 ls]; [done|].
    assert (records (set_fs n (set_fs n1 s)) = records s) as -> by done.
    rewrite Hrecs, keys_to_dict. rewrite <- Hrecs.
    unfold writeheader.
    rewrite (writerow_ok _ _ _ _ _ dict_to_list_header).
    cbn [fs set_fs]. rewrite !set_fs_set_fs.
    change (set_fs (write_at p (csv.row (map Some field_names)) n) (set_fs n1 s))
      with (set_fs (write_at p (csv.row (map Some field_names)) n) s).
    rewrite Hrows. done.
  - unfold read_file. rewrite Hn', keys_to_dict. done.
Qed.

(** ** What the console shows *)

Lemma printed_nil s : printed [] s = s.
Proof. destruct s. unfold printed. simpl. by rewrite app_nil_r. Qed.

Lemma printed_printed l1 l2 s : printed l2 (printed l1 s) = printed (l1 ++ l2) s.
Proof. unfold printed. simpl. by rewrite app_assoc. Qed.

Lemma display_items_spec d : ∀ s,
  display_items d s = (Return tt, printed (console_items d) s).
Proof.
  unfold display_items.
  induction d as [|[k [v|]] d IH]; intros s; cbn [for_each console_items omap list_omap snd fst].
  - by rewrite printed_nil.
  - unfold mbind, M_bind. destruct (Py.truthy v).
    + unfold print at 1. rewrite IH.
      change (mk_state (heap s) (results s) (cache s) (queries s) (log s)
                (stdout s ++ [display_line k v]) (fs s))
        with (printed [display_line k v] s).
      by rewrite printed_printed.
    + cbn [mret M_ret]. by rewrite IH.
  - unfold mbind, M_bind. cbn [mret M_ret]. by rewrite IH.
Qed.

Lemma display_result_spec l r s :
  heap s !! l = Some r →
  display_result (Some l) s
  = (Return tt, printed (banner :: console_items (to_dict r)) s).
Proof.
  intros Hl. unfold display_result, gets, mbind, M_bind, option_bind.
  rewrite Hl. unfold print at 1.
  rewrite display_items_spec.
  change (mk_state (heap s) (results s) (cache s) (queries s) (log s)
            (stdout s ++ [banner]) (fs s))
    with (printed [banner] s).
  by rewrite printed_printed.
Qed.

(** ** Objects are never overwritten *)

Section Heap.

Variable whois_whois : nat → string → exn + whois.WhoisEntry.

Lemma heap_lookup_step d s l r :
  heap s !! l = Some r →
  heap (perform_whois_async whois_whois d s).2 !! l = Some r.
Proof.
  intros Hl. rewrite async_sync.
  destruct (lookup_cases whois_whois d s) as [[v H]|[[H [data Hq]]|[H [e Hq]]]].
  - by rewrite (sync_hit _ _ _ _ H).
  - rewrite (sync_miss_ok _ _ _ _ H Hq). cbn [snd heap].
    by apply lookup_app_l_Some.
  - by rewrite (sync_miss_fail _ _ _ _ H Hq).
Qed.

Lemma heap_exec c s l r :
  heap s !! l = Some r → heap (exec whois_whois c s) !! l = Some r.
Proof.
  intros Hl. destruct c as [d|res|p|p]; cbn [exec].
  - by apply heap_lookup_step.
  - destruct (frame_display_result res s) as (-> & _). done.
  - destruct (frame_export_to_json p s) as (-> & _). done.
  - destruct (frame_export_to_csv p s) as (-> & _). done.
Qed.

Lemma heap_exec_all cs : ∀ s l r,
  heap s !! l = Some r → heap (exec_all whois_whois cs s) !! l = Some r.
Proof.
  induction cs as [|c cs IH]; intros s l r Hl; [done|].
  cbn [exec_all foldl]. apply IH. by apply heap_exec.
Qed.

End Heap.

Lemma fs_lookup_parent p : ∀ n m,
  p ≠ [] → fs_lookup p n = Some m →
  ∃ es, fs_lookup (parent p) n = Some (Dir es).
Proof.
  unfold parent.
  induction p as [|c p IH]; intros n m Hne Hl; [done|].
  destruct n as [?|es]; [done|]. cbn [fs_lookup] in Hl.
  destruct (entry_lookup c es) as [child|] eqn:Hc; [|done]. cbn in Hl.
  destruct p as [|c' p]; [by eexists|].
  destruct (IH child m) as (es' & Hes'); [done|done|].
  exists es'. cbn [removelast fs_lookup]. rewrite Hc. done.
Qed.

Lemma prepare_nonempty p n n' : prepare p n = inr n' → p ≠ [].
Proof.
  intros H ->. unfold prepare, mkdir_parents, open_w, parent in H. simpl in H.
  by destruct n.
Qed.

(** ** The model on examples *)

(** [repr] picks double quotes for a text with an apostrophe. *)
Example str_of_values :
  Py.str (Py.VList [Py.VStr "it's"; Py.VStr "ok"])
  = "[" +:+ String Py.quote2 ("it's" +:+ String Py.quote2 ", 'ok']").
Proof. vm_compute. reflexivity. Qed.

Example str_of_datetime :
  Py.str (Py.VDate (Py.mk_datetime 1995 8 14 4 0 5 0)) = "1995-08-14 04:00:05"
  ∧ Py.str (Py.VList [Py.VDate (Py.mk_datetime 1995 8 14 4 0 0 0)])
    = "[datetime.datetime(1995, 8, 14, 4, 0)]"
  ∧ Py.str (Py.VList [Py.VStr "a"; Py.VStr "b"]) = "['a', 'b']".
Proof. repeat split; vm_compute; reflexivity. Qed.

Example export_csv_example :
  read_file ["out"; "r.csv"] (fs (export_to_csv ["out"; "r.csv"] demo_state).2)
  = Some ("domain,registrar,whois_server,creation_date,expiration_date,"
          +:+ "updated_date,status,name_servers,emails" +:+ csv.lineterminator
          +:+ "example.com,IANA,,,,,['active'],," +:+ csv.lineterminator).
Proof. vm_compute. reflexivity. Qed.

(** An empty list and a target that exists: the file is emptied and the
    export raises. *)
Example export_csv_empties_file :
  read_file ["notes.txt"] (fs (init disk0)) = Some "keep"
  ∧ (export_to_csv ["notes.txt"] (init disk0)).1
    = Raise (ValueError "No results to export")
  ∧ read_file ["notes.txt"] (fs (export_to_csv ["notes.txt"] (init disk0)).2)
    = Some "".
Proof. repeat split; vm_compute; reflexivity. Qed.

(** The bound of the cache is met: after [maxsize - 1] other domains the
    entry of [example.com] is still there, after [maxsize] it is gone and
    the collaborator is queried again. *)
Example eviction_at_maxsize :
  length (queries (lookups mock_whois
                     ("example.com" :: some_domains 127 ++ ["example.com"])
                     (init disk0)).2) = 128
  ∧ length (queries (lookups mock_whois
                       ("example.com" :: some_domains 128 ++ ["example.com"])
                       (init disk0)).2) = 130.
Proof. split; vm_compute; reflexivity. Qed.

(** * The claims *)

(** ** Lookup *)

(** C1.  For every domain [d], in every state of a session, the lookup
    ([perform_whois_async], and [_perform_whois_sync] under it) returns:
    either a reference to a record whose [domain] field is [d], or [None].
    It does not raise. *)
Theorem lookup_record_or_none whois_whois d s :
  reachable whois_whois s →
  ∃ res s',
    perform_whois_async whois_whois d s = (Return res, s')
    ∧ _perform_whois_sync whois_whois d s = (Return res, s')
    ∧ match res with
      | Some l => ∃ r, heap s' !! l = Some r ∧ domain r = d
      | None => True
      end.
Proof.
  intros [Hsound _ _]%reachable_wf. rewrite async_sync.
  destruct (lookup_cases whois_whois d s) as [[v H]|[[H [data Hq]]|[H [e Hq]]]].
  - rewrite (sync_hit _ _ _ _ H). eexists _, _. split; [done|split; [done|]].
    destruct v as [l|]; [|done]. cbn [heap].
    apply Hsound. by apply dict_get_Some.
  - rewrite (sync_miss_ok _ _ _ _ H Hq). eexists _, _. split; [done|split; [done|]].
    exists (make_result d data). cbn [heap]. split; [|done].
    by rewrite lookup_app_r, Nat.sub_diag.
  - rewrite (sync_miss_fail _ _ _ _ H Hq). by eexists _, _.
Qed.

Lemma lookup_record_or_none_witness :
  reachable mock_whois (exec mock_whois (Lookup "example.com") (init disk0))
  ∧ ∃ res s',
      perform_whois_async mock_whois "example.com"
        (exec mock_whois (Lookup "example.com") (init disk0))
      = (Return res, s')
      ∧ _perform_whois_sync mock_whois "example.com"
          (exec mock_whois (Lookup "example.com") (init disk0))
        = (Return res, s')
      ∧ match res with
        | Some l => ∃ r, heap s' !! l = Some r ∧ domain r = "example.com"
        | None => True
        end.
Proof.
  split.
  - apply reachable_exec, reachable_init.
  - apply (lookup_record_or_none mock_whois "example.com").
    apply reachable_exec, reachable_init.
Defined.

(** C4.  After a lookup of [D], and then lookups [ds] among which fewer than
    128 distinct domains other than [D] occur, a lookup of the same string
    [D] returns the result of the first one, and the collaborator is not
    queried for it: the count of queries, the objects and the list are as
    before. *)
Theorem repeated_lookup_served_from_cache whois_whois D ds s :
  reachable whois_whois s →
  distinct_others D ds < maxsize →
  ∃ r s1 outs s2 s3,
    perform_whois_async whois_whois D s = (Return r, s1)
    ∧ lookups whois_whois ds s1 = (Return outs, s2)
    ∧ perform_whois_async whois_whois D s2 = (Return r, s3)
    ∧ queries s3 = queries s2
    ∧ heap s3 = heap s2
    ∧ results s3 = results s2.
Proof.
  intros [_ _ Hnd]%reachable_wf Hlt%distinct_others_bounded.
  destruct (lookup_caches whois_whois D s Hnd) as (r & s1 & H1 & Hinv1).
  destruct (lookups_keep whois_whois D r ds [] s1 Hinv1 Hlt)
    as (outs & s2 & H2 & Hinv2).
  apply lru_inv_get in Hinv2.
  exists r, s1, outs, s2. eexists. split; [done|split; [done|]].
  rewrite async_sync, (sync_hit _ _ _ _ Hinv2). done.
Qed.

Lemma repeated_lookup_served_from_cache_witness :
  reachable mock_whois (init disk0)
  ∧ distinct_others "example.com" ["a.org"; "example.com"; "b.org"; "a.org"]
    < maxsize
  ∧ ∃ r s1 outs s2 s3,
      perform_whois_async mock_whois "example.com" (init disk0) = (Return r, s1)
      ∧ lookups mock_whois ["a.org"; "example.com"; "b.org"; "a.org"] s1
        = (Return outs, s2)
      ∧ perform_whois_async mock_whois "example.com" s2 = (Return r, s3)
      ∧ queries s3 = queries s2
      ∧ heap s3 = heap s2
      ∧ results s3 = results s2.
Proof.
  split; [apply reachable_init|]. split; [vm_compute; lia|].
  apply (repeated_lookup_served_from_cache mock_whois "example.com"
           ["a.org"; "example.com"; "b.org"; "a.org"] (init disk0)).
  - apply reachable_init.
  - vm_compute; lia.
Defined.

Lemma omap_id_length {A} (outs : list (option A)) :
  Forall is_Some outs → length (omap id outs) = length outs.
Proof.
  induction 1 as [|o outs [x ->] _ IH]; [done|]. simpl. f_equal. exact IH.
Qed.

(** C2, amended.  After lookups of pairwise distinct domains by a new tool
    the list holds the records of the calls that succeeded, in call order:
    if all [N] succeed, exactly [N] records, for the domains in the order
    looked up.  A further lookup of a domain that is still cached returns
    the cached result and appends nothing. *)
Theorem store_after_distinct_lookups whois_whois disk ds :
  NoDup ds →
  ∃ outs s',
    lookups whois_whois ds (init disk) = (Return outs, s')
    ∧ length outs = length ds
    ∧ results s' = omap id outs
    ∧ (Forall is_Some outs →
       length (results s') = length ds ∧ map domain (records s') = ds)
    ∧ ∀ d v, cache_get d (cache s') = Some v →
        ∃ s'', perform_whois_async whois_whois d s' = (Return v, s'')
               ∧ results s'' = results s'.
Proof.
  intros Hnd.
  destruct (lookups_fresh whois_whois ds (init disk) Hnd)
    as (outs & s' & Hrun & Hlen & Hres & Hdom); [done|apply wf_init|].
  exists outs, s'. split; [done|split; [done|split; [done|split]]].
  - intros Hall. split; [|by apply Hdom].
    rewrite Hres. change (results (init disk)) with (@nil nat).
    by rewrite app_nil_l, omap_id_length.
  - intros d v Hhit. rewrite async_sync, (sync_hit _ _ _ _ Hhit). by eexists.
Qed.

Lemma store_after_distinct_lookups_witness :
  NoDup ["example.com"; "nxdomain.invalid"; "example.org"]
  ∧ ∃ outs s',
      lookups mock_whois ["example.com"; "nxdomain.invalid"; "example.org"]
        (init disk0) = (Return outs, s')
      ∧ length outs = 3
      ∧ results s' = omap id outs
      ∧ (Forall is_Some outs →
         length (results s') = 3
         ∧ map domain (records s')
           = ["example.com"; "nxdomain.invalid"; "example.org"])
      ∧ ∀ d v, cache_get d (cache s') = Some v →
          ∃ s'', perform_whois_async mock_whois d s' = (Return v, s'')
                 ∧ results s'' = results s'.
Proof.
  split; [compute_done|].
  apply (store_after_distinct_lookups mock_whois disk0
           ["example.com"; "nxdomain.invalid"; "example.org"]).
  compute_done.
Defined.

(** C2 as stated fails: two successful lookups of one domain leave one
    record, because the second is answered by the cache. *)
Lemma repeated_lookup_appends_once :
  ∃ s',
    lookups mock_whois ["example.com"; "example.com"] (init disk0)
    = (Return [Some 0; Some 0], s')
    ∧ results s' = [0]
    ∧ length (results s') ≠ length ["example.com"; "example.com"].
Proof.
  eexists. split; [vm_compute; reflexivity|].
  split; [reflexivity|]. simpl. lia.
Qed.

(** C8.  The record a lookup returns has the looked-up domain, and no
    sequence of lookups, displays and exports changes it, nor any record
    that existed before: the same reference reads the same record. *)
Theorem records_never_mutated whois_whois d s l s1 cs :
  reachable whois_whois s →
  perform_whois_async whois_whois d s = (Return (Some l), s1) →
  ∃ r,
    heap s1 !! l = Some r
    ∧ domain r = d
    ∧ heap (exec_all whois_whois cs s1) !! l = Some r
    ∧ ∀ l' r', heap s !! l' = Some r' →
        heap (exec_all whois_whois cs s1) !! l' = Some r'.
Proof.
  intros [Hsound _ _]%reachable_wf Hrun.
  assert (Hold : ∀ l' r', heap s !! l' = Some r' → heap s1 !! l' = Some r').
  { intros l' r' Hl'.
    pose proof (heap_lookup_step whois_whois d s l' r' Hl') as Hstep.
    by rewrite Hrun in Hstep. }
  assert (Hnew : ∃ r, heap s1 !! l = Some r ∧ domain r = d).
  { rewrite async_sync in Hrun.
    destruct (lookup_cases whois_whois d s) as [[v H]|[[H [data Hq]]|[H [e Hq]]]].
    - rewrite (sync_hit _ _ _ _ H) in Hrun. simplify_eq. cbn [heap].
      apply Hsound. by apply dict_get_Some.
    - rewrite (sync_miss_ok _ _ _ _ H Hq) in Hrun. simplify_eq. cbn [heap].
      exists (make_result d data). split; [|done].
      by rewrite lookup_app_r, Nat.sub_diag.
    - by rewrite (sync_miss_fail _ _ _ _ H Hq) in Hrun. }
  destruct Hnew as (r & Hr & Hd).
  exists r. split; [done|split; [done|split]].
  - by apply heap_exec_all.
  - intros l' r' Hl'. by apply heap_exec_all, Hold.
Qed.

Lemma records_never_mutated_witness :
  reachable mock_whois (init disk0)
  ∧ ∃ r,
      heap (perform_whois_async mock_whois "example.com" (init disk0)).2 !! 0
      = Some r
      ∧ domain r = "example.com"
      ∧ heap (exec_all mock_whois
                [Display (Some 0); ExportJson ["out"; "r.json"];
                 ExportCsv ["out"; "r.csv"]; Lookup "example.org"]
                (perform_whois_async mock_whois "example.com" (init disk0)).2)
        !! 0 = Some r
      ∧ ∀ l' r', heap (init disk0) !! l' = Some r' →
          heap (exec_all mock_whois
                  [Display (Some 0); ExportJson ["out"; "r.json"];
                   ExportCsv ["out"; "r.csv"]; Lookup "example.org"]
                  (perform_whois_async mock_whois "example.com" (init disk0)).2)
          !! l' = Some r'.
Proof.
  split; [apply reachable_init|].
  apply (records_never_mutated mock_whois "example.com" (init disk0) 0).
  - apply reachable_init.
  - reflexivity.
Defined.

(** C10.  An export, whether it returns or raises, leaves the list of
    records as it was: the same references, denoting the same records. *)
Theorem exports_leave_store_unchanged s p :
  results (export_to_json p s).2 = results s
  ∧ records (export_to_json p s).2 = records s
  ∧ results (export_to_csv p s).2 = results s
  ∧ records (export_to_csv p s).2 = records s.
Proof.
  destruct (frame_export_to_json p s) as (Hh & Hr & _).
  destruct (frame_export_to_csv p s) as (Hh' & Hr' & _).
  unfold records. rewrite Hh, Hr, Hh', Hr'. done.
Qed.

(** ** Export *)

Lemma records_fmap s :
  refs_valid s → Some <$> records s = (λ l, heap s !! l) <$> results s.
Proof.
  unfold records, refs_valid. generalize (results s) as ls.
  induction ls as [|l ls IH]; intros Hv; [done|].
  destruct (lookup_lt_is_Some_2 (heap s) l) as [r Hr]; [apply Hv; left|].
  cbn [omap list_omap]. rewrite fmap_cons, Hr, fmap_cons.
  f_equal. apply IH. intros l' Hin. apply Hv. by right.
Qed.

Lemma records_nil s : results s = [] → records s = [].
Proof. unfold records. by intros ->. Qed.

Lemma flat_object_of_dict d : flat_object (json.of_dict d) = true.
Proof.
  unfold json.of_dict, flat_object.
  induction d as [|[k [v|]] d IH]; simpl; auto.
Qed.

Lemma written_file p n text :
  read_file p n = Some "" → read_file p (write_at p text n) = Some text.
Proof.
  unfold read_file. destruct (fs_lookup p n) as [[old|?]|] eqn:Hl; [|done..].
  intros ?; simplify_eq. by rewrite (write_at_lookup text p n "" Hl).
Qed.

Lemma written_parent p n text :
  p ≠ [] → read_file p n = Some "" →
  ∃ es, fs_lookup (parent p) (write_at p text n) = Some (Dir es).
Proof.
  intros Hne Hr. apply (written_file p n text) in Hr. unfold read_file in Hr.
  destruct (fs_lookup p (write_at p text n)) as [m|] eqn:Hl; [|done].
  by eapply fs_lookup_parent.
Qed.

(** C6.  [export_to_json] writes the stored records, in order and each
    through [to_dict], as one JSON array of objects whose members are
    strings or [null]; the parent directories of the target exist afterwards.
    When they cannot be made or the file cannot be opened, the [OSError] is
    logged and raised to the caller. *)
Theorem export_json_array_or_reraise whois_whois s p :
  reachable whois_whois s →
  match prepare p (fs s) with
  | inr n =>
      ∃ s' objs,
        export_to_json p s = (Return tt, s')
        ∧ objs = map (λ r, json.of_dict (to_dict r)) (records s)
        ∧ Some <$> records s = (λ l, heap s !! l) <$> results s
        ∧ length objs = length (results s)
        ∧ forallb flat_object objs = true
        ∧ read_file p (fs s') = Some (json.dumps (json.Array objs))
        ∧ ∃ es, fs_lookup (parent p) (fs s') = Some (Dir es)
  | inl e =>
      ∃ s',
        export_to_json p s = (Raise e, s')
        ∧ is_OSError e = true
        ∧ log s' = log s ++ [(ERROR, "Error exporting to JSON: " +:+ exn_str e)]
  end.
Proof.
  intros [_ Hrefs _]%reachable_wf.
  destruct (prepare p (fs s)) as [e|n] eqn:Hprep.
  - rewrite (export_to_json_io_error _ _ _ Hprep). eexists. split; [done|].
    split; [by eapply prepare_OSError|done].
  - rewrite (export_to_json_ok _ _ _ Hprep). eexists _, _.
    split; [done|]. split; [done|]. split; [by apply records_fmap|].
    split; [by rewrite length_map, records_length|].
    split.
    { apply forallb_forall. intros o (r & <- & _)%in_map_iff.
      apply flat_object_of_dict. }
    pose proof (prepare_lookup _ _ _ Hprep) as Hread.
    cbn [logged logger_emit snd fs set_fs]. split.
    + unfold json.of_list. rewrite map_map. by apply written_file.
    + apply written_parent; [by eapply prepare_nonempty|done].
Qed.

Lemma export_json_array_or_reraise_witness :
  reachable mock_whois demo_state
  ∧ match prepare ["notes.txt"; "r.json"] (fs demo_state) with
    | inr n =>
        ∃ s' objs,
          export_to_json ["notes.txt"; "r.json"] demo_state = (Return tt, s')
          ∧ objs = map (λ r, json.of_dict (to_dict r)) (records demo_state)
          ∧ Some <$> records demo_state
            = (λ l, heap demo_state !! l) <$> results demo_state
          ∧ length objs = length (results demo_state)
          ∧ forallb flat_object objs = true
          ∧ read_file ["notes.txt"; "r.json"] (fs s')
            = Some (json.dumps (json.Array objs))
          ∧ ∃ es, fs_lookup (parent ["notes.txt"; "r.json"]) (fs s')
                  = Some (Dir es)
    | inl e =>
        ∃ s',
          export_to_json ["notes.txt"; "r.json"] demo_state = (Raise e, s')
          ∧ is_OSError e = true
          ∧ log s'
            = log demo_state
              ++ [(ERROR, "Error exporting to JSON: " +:+ exn_str e)]
    end.
Proof.
  split.
  - apply reachable_exec, reachable_init.
  - apply (export_json_array_or_reraise mock_whois demo_state
             ["notes.txt"; "r.json"]).
    apply reachable_exec, reachable_init.
Defined.

(** C9.  With an empty list [export_to_json] never raises the condition of
    the CSV export (what it raises is an [OSError] of the file system), and
    whenever the target can be opened it returns and the file holds the
    empty array. *)
Theorem export_json_empty_store s p :
  results s = [] →
  (∀ e s', export_to_json p s = (Raise e, s') →
     is_OSError e = true ∧ e ≠ ValueError "No results to export")
  ∧ ∀ n, prepare p (fs s) = inr n →
      ∃ s', export_to_json p s = (Return tt, s')
            ∧ read_file p (fs s') = Some "[]".
Proof.
  intros Hres. split.
  - intros e s' Hrun. destruct (prepare p (fs s)) as [e'|n] eqn:Hprep.
    + rewrite (export_to_json_io_error _ _ _ Hprep) in Hrun. simplify_eq.
      apply prepare_OSError in Hprep. split; [done|]. by intros ->.
    + by rewrite (export_to_json_ok _ _ _ Hprep) in Hrun.
  - intros n Hprep. rewrite (export_to_json_ok _ _ _ Hprep). eexists.
    split; [done|]. rewrite (records_nil _ Hres).
    cbn [logged logger_emit snd fs set_fs].
    apply (written_file p n "[]"). by eapply prepare_lookup.
Qed.

Lemma export_json_empty_store_witness :
  results (init disk0) = []
  ∧ (∀ e s', export_to_json ["out"; "r.json"] (init disk0) = (Raise e, s') →
       is_OSError e = true ∧ e ≠ ValueError "No results to export")
  ∧ ∀ n, prepare ["out"; "r.json"] (fs (init disk0)) = inr n →
      ∃ s', export_to_json ["out"; "r.json"] (init disk0) = (Return tt, s')
            ∧ read_file ["out"; "r.json"] (fs s') = Some "[]".
Proof.
  split; [reflexivity|].
  apply (export_json_empty_store (init disk0) ["out"; "r.json"]). reflexivity.
Defined.

(** C7.  With a list that is not empty and a target that can be opened,
    [export_to_csv] returns, and the file holds the header row, which is the
    field names of the first record in the order of its dictionary, followed
    by one row for each record in order: as many rows as records, and one. *)
Theorem export_csv_header_and_rows whois_whois s p n :
  reachable whois_whois s →
  results s ≠ [] →
  prepare p (fs s) = inr n →
  ∃ r0 rest s' rows,
    records s = r0 :: rest
    ∧ export_to_csv p s = (Return tt, s')
    ∧ rows = map Some (keys (to_dict r0))
             :: map (λ r, map snd (to_dict r)) (records s)
    ∧ keys (to_dict r0) = keys (asdict r0)
    ∧ read_file p (fs s') = Some (csv_text rows)
    ∧ length rows = length (results s) + 1.
Proof.
  intros [_ Hrefs _]%reachable_wf Hne Hprep.
  pose proof (records_length s Hrefs) as Hlen.
  destruct (records s) as [|r0 rest] eqn:Hrecs.
  { destruct (results s); [done|]. simpl in Hlen. lia. }
  destruct (export_to_csv_ok p s n r0 rest Hne Hrecs Hprep) as (n' & Hrun & Hfile).
  exists r0, rest. eexists _, _. split; [done|]. split; [exact Hrun|].
  split; [done|]. split; [done|]. split.
  - rewrite <- Hrecs. exact Hfile.
  - cbn [length]. rewrite length_map, <- Hlen. simpl. lia.
Qed.

Lemma export_csv_header_and_rows_witness :
  reachable mock_whois demo_state
  ∧ results demo_state ≠ []
  ∧ prepare ["out"; "r.csv"] (fs demo_state) = inr (disk0_open "r.csv")
  ∧ ∃ r0 rest s' rows,
      records demo_state = r0 :: rest
      ∧ export_to_csv ["out"; "r.csv"] demo_state = (Return tt, s')
      ∧ rows = map Some (keys (to_dict r0))
               :: map (λ r, map snd (to_dict r)) (records demo_state)
      ∧ keys (to_dict r0) = keys (asdict r0)
      ∧ read_file ["out"; "r.csv"] (fs s') = Some (csv_text rows)
      ∧ length rows = length (results demo_state) + 1.
Proof.
  split; [apply reachable_exec, reachable_init|].
  split; [discriminate|]. split; [reflexivity|].
  apply (export_csv_header_and_rows mock_whois demo_state ["out"; "r.csv"]
           (disk0_open "r.csv")).
  - apply reachable_exec, reachable_init.
  - discriminate.
  - reflexivity.
Defined.

(** C3, amended.  With an empty list [export_to_csv] always raises and
    writes nothing.  It first makes the parent directories and opens the
    file, which creates it or empties it; when that fails, what is raised is
    the [OSError]; otherwise the check of the list, which comes before any
    header is written, raises the [ValueError] and leaves the file empty. *)
Theorem export_csv_empty_store s p :
  results s = [] →
  ∃ e s',
    export_to_csv p s = (Raise e, s')
    ∧ match prepare p (fs s) with
      | inr n =>
          e = ValueError "No results to export"
          ∧ fs s' = n
          ∧ read_file p (fs s') = Some ""
      | inl e' =>
          e = e' ∧ is_OSError e = true ∧ fs s' = prepare_left p (fs s)
      end.
Proof.
  intros Hres. destruct (prepare p (fs s)) as [e'|n] eqn:Hprep.
  - rewrite (export_to_csv_io_error _ _ _ Hprep). eexists _, _.
    split; [done|]. split; [done|]. split; [by eapply prepare_OSError|done].
  - rewrite (export_to_csv_empty _ _ _ Hres Hprep). eexists _, _.
    split; [done|]. split; [done|]. split; [done|].
    by eapply prepare_lookup.
Qed.

Lemma export_csv_empty_store_witness :
  results (init disk0) = []
  ∧ ∃ e s',
      export_to_csv ["notes.txt"] (init disk0) = (Raise e, s')
      ∧ match prepare ["notes.txt"] (fs (init disk0)) with
        | inr n =>
            e = ValueError "No results to export"
            ∧ fs s' = n
            ∧ read_file ["notes.txt"] (fs s') = Some ""
        | inl e' =>
            e = e' ∧ is_OSError e = true
            ∧ fs s' = prepare_left ["notes.txt"] (fs (init disk0))
        end.
Proof.
  split; [reflexivity|].
  apply (export_csv_empty_store (init disk0) ["notes.txt"]). reflexivity.
Defined.

(** C3 as stated fails: with an empty list and the target [Path(".")],
    which cannot be opened for writing, [export_to_csv] raises
    [IsADirectoryError], not the condition of the empty list. *)
Lemma export_csv_empty_store_io_error_first :
  results (init disk0) = []
  ∧ ∃ s',
      export_to_csv [] (init disk0) = (Raise (IsADirectoryError []), s')
      ∧ IsADirectoryError [] ≠ ValueError "No results to export".
Proof.
  split; [reflexivity|]. eexists.
  split; [vm_compute; reflexivity|discriminate].
Qed.

(** ** The conversion and its three uses *)

Lemma dict_get_map_values {V W} (f : V → W) k (d : dict V) :
  dict_get k (map (λ kv, (kv.1, f kv.2)) d) = f <$> dict_get k d.
Proof.
  induction d as [|[k' v] d IH]; [done|]. simpl. by case_decide.
Qed.

Lemma lookup_map {A B} (f : A → B) (l : list A) i x :
  l !! i = Some x → map f l !! i = Some (f x).
Proof.
  intros H. change (map f l) with (f <$> l). by rewrite list_lookup_fmap, H.
Qed.

Lemma dict_get_to_dict r k :
  dict_get k (to_dict r) = option_map (option_map Py.str) (dict_get k (asdict r)).
Proof. exact (dict_get_map_values (option_map Py.str) k (asdict r)). Qed.

(** The running example of the specification: a status list is shown as
    the text of the list. *)
Example to_dict_example :
  to_dict demo_record
  = [("domain", Some "example.com"); ("registrar", Some "IANA");
     ("whois_server", None); ("creation_date", None);
     ("expiration_date", None); ("updated_date", None);
     ("status", Some "['active']"); ("name_servers", None); ("emails", None)].
Proof. reflexivity. Qed.

(** C5.  [to_dict] maps each of the nine field names to [str] of the value
    when the field is set and to [None] when it is not.  The console, the
    JSON export and the CSV export all render that dictionary: the console
    prints a line for each value that is set (and not empty), the JSON object
    has the string or [null], the CSV row has the string or an empty cell,
    field by field in the same order. *)
Theorem to_dict_feeds_all_presentations whois_whois s l r p n :
  reachable whois_whois s →
  heap s !! l = Some r →
  results s ≠ [] →
  prepare p (fs s) = inr n →
  (keys (to_dict r) = field_names
   ∧ ∀ k v, dict_get k (asdict r) = Some v →
       dict_get k (to_dict r) = Some (Py.str <$> v))
  ∧ stdout (display_result (Some l) s).2
    = stdout s ++ banner :: console_items (to_dict r)
  ∧ read_file p (fs (export_to_json p s).2)
    = Some (json.dumps
              (json.Array (map (λ r, json.of_dict (to_dict r)) (records s))))
  ∧ read_file p (fs (export_to_csv p s).2)
    = Some (csv_text (map Some field_names
                        :: map (λ r, map snd (to_dict r)) (records s)))
  ∧ ∀ i k v, to_dict r !! i = Some (k, v) →
      field_names !! i = Some k
      ∧ (∃ ms, json.of_dict (to_dict r) = json.Object ms
               ∧ ms !! i = Some (k, json.of_str v))
      ∧ map snd (to_dict r) !! i = Some v
      ∧ match v with
        | Some x =>
            Py.truthy x = true →
            display_line k x ∈ console_items (to_dict r)
        | None => True
        end.
Proof.
  intros [_ Hrefs _]%reachable_wf Hl Hne Hprep.
  pose proof (prepare_lookup _ _ _ Hprep) as Hread.
  split; [split; [done|]|split; [|split; [|split]]].
  - intros k v Hk. by rewrite dict_get_to_dict, Hk.
  - by rewrite (display_result_spec l r s Hl).
  - rewrite (export_to_json_ok _ _ _ Hprep).
    cbn [logged logger_emit snd fs set_fs].
    unfold json.of_list. rewrite map_map. by apply written_file.
  - pose proof (records_length s Hrefs) as Hlen.
    destruct (records s) as [|r0 rest] eqn:Hrecs.
    { destruct (results s); [done|]. simpl in Hlen. lia. }
    destruct (export_to_csv_ok p s n r0 rest Hne Hrecs Hprep)
      as (n' & Hrun & Hfile).
    rewrite Hrun. cbn [logged logger_emit snd fs set_fs].
    by rewrite Hfile, keys_to_dict, Hrecs.
  - intros i k v Hi. split; [|split; [|split]].
    + exact (lookup_map fst _ _ _ Hi).
    + eexists. split; [reflexivity|].
      exact (lookup_map (λ kv, (kv.1, json.of_str kv.2)) _ _ _ Hi).
    + exact (lookup_map snd _ _ _ Hi).
    + destruct v as [x|]; [|done]. intros Hx.
      apply list_elem_of_omap. exists (k, Some x). split.
      * by eapply list_elem_of_lookup_2.
      * simpl. by rewrite Hx.
Qed.

Lemma to_dict_feeds_all_presentations_witness :
  reachable mock_whois demo_state
  ∧ heap demo_state !! 0 = Some demo_record
  ∧ results demo_state ≠ []
  ∧ prepare ["out"; "r.json"] (fs demo_state) = inr (disk0_open "r.json")
  ∧ (keys (to_dict demo_record) = field_names
     ∧ ∀ k v, dict_get k (asdict demo_record) = Some v →
         dict_get k (to_dict demo_record) = Some (Py.str <$> v))
  ∧ stdout (display_result (Some 0) demo_state).2
    = stdout demo_state ++ banner :: console_items (to_dict demo_record)
  ∧ read_file ["out"; "r.json"]
      (fs (export_to_json ["out"; "r.json"] demo_state).2)
    = Some (json.dumps
              (json.Array (map (λ r, json.of_dict (to_dict r))
                             (records demo_state))))
  ∧ read_file ["out"; "r.json"]
      (fs (export_to_csv ["out"; "r.json"] demo_state).2)
    = Some (csv_text (map Some field_names
                        :: map (λ r, map snd (to_dict r)) (records demo_state)))
  ∧ ∀ i k v, to_dict demo_record !! i = Some (k, v) →
      field_names !! i = Some k
      ∧ (∃ ms, json.of_dict (to_dict demo_record) = json.Object ms
               ∧ ms !! i = Some (k, json.of_str v))
      ∧ map snd (to_dict demo_record) !! i = Some v
      ∧ match v with
        | Some x =>
            Py.truthy x = true →
            display_line k x ∈ console_items (to_dict demo_record)
        | None => True
        end.
Proof.
  split; [apply reachable_exec, reachable_init|].
  split; [reflexivity|]. split; [discriminate|]. split; [reflexivity|].
  apply (to_dict_feeds_all_presentations mock_whois demo_state 0 demo_record
           ["out"; "r.json"] (disk0_open "r.json")).
  - apply reachable_exec, reachable_init.
  - reflexivity.
  - discriminate.
  - reflexivity.
Defined.

(** * Further properties of the session *)

(** ** The list and the objects *)

Section Store.

Variable whois_whois : nat → string → exn + whois.WhoisEntry.

(** X1.  In every state of a session the list refers to each record that
    was ever built exactly once, in the order they were built: a lookup that
    the cache answers adds no second reference, and no record is built
    without being listed. *)
Theorem store_lists_each_record_once s :
  reachable whois_whois s →
  results s = seq 0 (length (heap s)) ∧ NoDup (results s).
Proof.
  intros Hreach.
  assert (Hseq : results s = seq 0 (length (heap s))).
  { induction Hreach as [disk|c s Hreach IH]; [done|].
    destruct c as [d|r|p|p]; cbn [exec].
    - rewrite async_sync.
      destruct (lookup_cases whois_whois d s)
        as [[v H]|[[H [data Hq]]|[H [e Hq]]]].
      + by rewrite (sync_hit _ _ _ _ H).
      + rewrite (sync_miss_ok _ _ _ _ H Hq). cbn [snd results heap].
        rewrite length_app, Nat.add_comm. cbn [length Nat.add].
        by rewrite seq_S, IH.
      + by rewrite (sync_miss_fail _ _ _ _ H Hq).
    - destruct (frame_display_result r s) as (-> & -> & _). done.
    - destruct (frame_export_to_json p s) as (-> & -> & _). done.
    - destruct (frame_export_to_csv p s) as (-> & -> & _). done. }
  split; [done|]. rewrite Hseq. apply NoDup_ListNoDup, List.seq_NoDup.
Qed.

(** X2.  No sequence of commands removes or reorders what is stored: the
    list before is a prefix of the list after, and so are the objects. *)
Theorem store_append_only cs : ∀ s,
  results s `prefix_of` results (exec_all whois_whois cs s)
  ∧ heap s `prefix_of` heap (exec_all whois_whois cs s).
Proof.
  induction cs as [|c cs IH]; intros s; [done|].
  cbn [exec_all foldl]. destruct (IH (exec whois_whois c s)) as [Hr Hh].
  assert (results s `prefix_of` results (exec whois_whois c s)
          ∧ heap s `prefix_of` heap (exec whois_whois c s)) as [Hr1 Hh1].
  { destruct c as [d|r|p|p]; cbn [exec].
    - rewrite async_sync.
      destruct (lookup_cases whois_whois d s)
        as [[v H]|[[H [data Hq]]|[H [e Hq]]]].
      + by rewrite (sync_hit _ _ _ _ H).
      + rewrite (sync_miss_ok _ _ _ _ H Hq). split; by apply prefix_app_r.
      + by rewrite (sync_miss_fail _ _ _ _ H Hq).
    - destruct (frame_display_result r s) as (-> & -> & _). done.
    - destruct (frame_export_to_json p s) as (-> & -> & _). done.
    - destruct (frame_export_to_csv p s) as (-> & -> & _). done. }
  split; etrans; eauto.
Qed.

Lemma cache_touch_length {V} k (v : V) (c : list (string * V)) :
  (k, v) ∈ c → length (cache_touch k v c) ≤ length c.
Proof.
  unfold cache_touch. induction c as [|[k' v'] c IH]; intros Hin.
  - by apply elem_of_nil in Hin.
  - cbn [length]. rewrite filter_cons. cbn [fst].
    case_decide as Hk.
    + apply elem_of_cons in Hin as [Heq|Hin]; [congruence|].
      specialize (IH Hin). cbn [length] in *. lia.
    + pose proof (length_filter (λ e : string * V, e.1 ≠ k) c). lia.
Qed.

Lemma cache_put_length {V} k (v : V) (c : list (string * V)) :
  length c ≤ maxsize → length (cache_put k v c) ≤ maxsize.
Proof.
  intros Hle. unfold cache_put. cbn [length]. case_decide as Hfull.
  - rewrite removelast_firstn_len, length_take. unfold maxsize in *. lia.
  - lia.
Qed.

Lemma lookup_cache_length d s :
  length (cache s) ≤ maxsize →
  length (cache (perform_whois_async whois_whois d s).2) ≤ maxsize.
Proof.
  intros Hle. rewrite async_sync.
  destruct (lookup_cases whois_whois d s)
    as [[v H]|[[H [data Hq]]|[H [e Hq]]]].
  - rewrite (sync_hit _ _ _ _ H). cbn [snd cache].
    etrans; [|exact Hle]. apply cache_touch_length. by apply dict_get_Some.
  - rewrite (sync_miss_ok _ _ _ _ H Hq). by apply cache_put_length.
  - rewrite (sync_miss_fail _ _ _ _ H Hq). by apply cache_put_length.
Qed.

Lemma lookups_cache_length ds : ∀ s,
  length (cache s) ≤ maxsize →
  length (cache (lookups whois_whois ds s).2) ≤ maxsize.
Proof.
  induction ds as [|d ds IH]; intros s Hle; [done|].
  cbn [lookups]. unfold mbind, M_bind.
  pose proof (lookup_cache_length d s Hle) as Hle1.
  destruct (perform_whois_async whois_whois d s) as [[r|e] s1]; [|done].
  specialize (IH s1 Hle1).
  by destruct (lookups whois_whois ds s1) as [[rs|e] s2].
Qed.

(** X3.  The cache never holds more than 128 entries, and never two for one
    domain. *)
Theorem cache_size_bounded s :
  reachable whois_whois s →
  length (cache s) ≤ maxsize ∧ NoDup (cache s).*1.
Proof.
  intros Hreach. split; [|by apply reachable_wf in Hreach as [_ _ ?]].
  induction Hreach as [disk|c s Hreach IH]; [cbn; unfold maxsize; lia|].
  destruct c as [d|r|p|p]; cbn [exec].
  - by apply lookup_cache_length.
  - by destruct (frame_display_result r s) as (_ & _ & -> & _).
  - by destruct (frame_export_to_json p s) as (_ & _ & -> & _).
  - by destruct (frame_export_to_csv p s) as (_ & _ & -> & _).
Qed.

Lemma answered_mono qs d data q :
  answered whois_whois qs d data → answered whois_whois (qs ++ q) d data.
Proof. intros (n & Hn & Hw). exists n. split; [by apply lookup_app_l_Some|done]. Qed.

Lemma refused_mono qs d q :
  refused whois_whois qs d → refused whois_whois (qs ++ q) d.
Proof.
  intros (n & e & Hn & Hw). exists n, e. split; [by apply lookup_app_l_Some|done].
Qed.

Lemma provenance_reachable s : reachable whois_whois s → provenance whois_whois s.
Proof.
  induction 1 as [disk|c s Hreach [IHh IHc]].
  { split; [intros l r Hl; by destruct l|].
    intros d Hin. by apply elem_of_nil in Hin. }
  destruct c as [d|r|p|p]; cbn [exec].
  - rewrite async_sync.
    destruct (lookup_cases whois_whois d s)
      as [[v H]|[[H [data Hq]]|[H [e Hq]]]].
    + rewrite (sync_hit _ _ _ _ H). split; [done|]. cbn [snd cache queries].
      intros d' Hin. apply IHc.
      apply (cache_touch_sublist d v (cache s)); [by apply dict_get_Some|done].
    + rewrite (sync_miss_ok _ _ _ _ H Hq). split; cbn [snd heap cache queries].
      * intros l r [Hl|[_ Hr]]%lookup_app_Some.
        -- destruct (IHh l r Hl) as (data' & Ha & ->).
           exists data'. split; [by apply answered_mono|done].
        -- apply list_lookup_singleton_Some in Hr as [_ <-].
           exists data. split; [|done]. exists (length (queries s)).
           split; [|done]. by rewrite lookup_app_r, Nat.sub_diag.
      * intros d' [Heq|Hin]%cache_put_elem; [done|].
        by apply refused_mono, IHc.
    + rewrite (sync_miss_fail _ _ _ _ H Hq). split; cbn [snd heap cache queries].
      * intros l r Hl. destruct (IHh l r Hl) as (data' & Ha & ->).
        exists data'. split; [by apply answered_mono|done].
      * intros d' [Heq|Hin]%cache_put_elem.
        -- injection Heq as ->. exists (length (queries s)), e.
           split; [|done]. by rewrite lookup_app_r, Nat.sub_diag.
        -- by apply refused_mono, IHc.
  - destruct (frame_display_result r s) as (Hh & _ & Hc & Hq).
    unfold provenance. by rewrite Hh, Hc, Hq.
  - destruct (frame_export_to_json p s) as (Hh & _ & Hc & Hq).
    unfold provenance. by rewrite Hh, Hc, Hq.
  - destruct (frame_export_to_csv p s) as (Hh & _ & Hc & Hq).
    unfold provenance. by rewrite Hh, Hc, Hq.
Qed.

(** X4.  Every record of a session holds, field for field, what the
    collaborator answered to one query for the record's own domain: the
    values are stored as they came. *)
Theorem record_holds_collaborator_answer s l r :
  reachable whois_whois s →
  heap s !! l = Some r →
  ∃ n data,
    queries s !! n = Some (domain r)
    ∧ whois_whois n (domain r) = inr data
    ∧ r = make_result (domain r) data.
Proof.
  intros [Hh _]%provenance_reachable Hl.
  destruct (Hh l r Hl) as (data & (n & Hn & Hw) & Hr). by exists n, data.
Qed.

(** X5.  A lookup returns [None] only when the collaborator raised on a
    query for that domain: on this call, or on the earlier call whose failure
    the cache still holds. *)
Theorem none_only_after_failure d s s' :
  reachable whois_whois s →
  perform_whois_async whois_whois d s = (Return None, s') →
  ∃ n e, queries s' !! n = Some d ∧ whois_whois n d = inl e.
Proof.
  intros [_ Hc]%provenance_reachable. rewrite async_sync.
  destruct (lookup_cases whois_whois d s)
    as [[v H]|[[H [data Hq]]|[H [e Hq]]]].
  - rewrite (sync_hit _ _ _ _ H). intros ?; simplify_eq. cbn [queries].
    apply Hc. by apply dict_get_Some.
  - by rewrite (sync_miss_ok _ _ _ _ H Hq).
  - rewrite (sync_miss_fail _ _ _ _ H Hq). intros ?; simplify_eq.
    exists (length (queries s)), e. cbn [queries].
    split; [|done]. by rewrite lookup_app_r, Nat.sub_diag.
Qed.

End Store.

Lemma store_lists_each_record_once_witness :
  reachable mock_whois demo_state
  ∧ results demo_state = seq 0 (length (heap demo_state))
  ∧ NoDup (results demo_state).
Proof.
  split; [apply reachable_exec, reachable_init|].
  apply (store_lists_each_record_once mock_whois demo_state).
  apply reachable_exec, reachable_init.
Defined.

Lemma cache_size_bounded_witness :
  reachable mock_whois demo_state
  ∧ length (cache demo_state) ≤ maxsize ∧ NoDup (cache demo_state).*1.
Proof.
  split; [apply reachable_exec, reachable_init|].
  apply (cache_size_bounded mock_whois demo_state).
  apply reachable_exec, reachable_init.
Defined.

Lemma record_holds_collaborator_answer_witness :
  reachable mock_whois demo_state
  ∧ heap demo_state !! 0 = Some demo_record
  ∧ ∃ n data,
      queries demo_state !! n = Some (domain demo_record)
      ∧ mock_whois n (domain demo_record) = inr data
      ∧ demo_record = make_result (domain demo_record) data.
Proof.
  split; [apply reachable_exec, reachable_init|]. split; [reflexivity|].
  apply (record_holds_collaborator_answer mock_whois demo_state 0 demo_record).
  - apply reachable_exec, reachable_init.
  - reflexivity.
Defined.

Lemma none_only_after_failure_witness :
  reachable mock_whois (init disk0)
  ∧ perform_whois_async mock_whois "nxdomain.invalid" (init disk0)
    = (Return None,
       (perform_whois_async mock_whois "nxdomain.invalid" (init disk0)).2)
  ∧ ∃ n e,
      queries (perform_whois_async mock_whois "nxdomain.invalid" (init disk0)).2
        !! n = Some "nxdomain.invalid"
      ∧ mock_whois n "nxdomain.invalid" = inl e.
Proof.
  split; [apply reachable_init|]. split; [vm_compute; reflexivity|].
  apply (none_only_after_failure mock_whois "nxdomain.invalid" (init disk0)).
  - apply reachable_init.
  - vm_compute; reflexivity.
Defined.

(** ** Eviction *)

Lemma filter_all {A} (P : A → Prop) `{!∀ x, Decision (P x)} (l : list A) :
  (∀ x, x ∈ l → P x) → filter P l = l.
Proof.
  induction l as [|x l IH]; intros Hall; [done|].
  rewrite filter_cons_True by (apply Hall; left).
  f_equal. apply IH. intros y Hy. apply Hall. by right.
Qed.

Lemma recent_touch {V} ds d (w : V) c :
  recent ds c → d ∉ ds → recent (ds ++ [d]) (cache_touch d w c).
Proof.
  intros (pre & rest & -> & Hpre) Hd.
  exists ((d, w) :: pre), (filter (λ e, e.1 ≠ d) rest). split.
  - unfold cache_touch. rewrite filter_app, (filter_all _ pre); [done|].
    intros [k v] Hin Hk. simpl in Hk. subst k.
    apply Hd. apply list_elem_of_In, in_rev. rewrite <- Hpre.
    apply list_elem_of_In. by apply (list_elem_of_fmap_2 fst) in Hin.
  - rewrite fmap_cons, Hpre, rev_app_distr. done.
Qed.

Lemma recent_put {V} ds d (w : V) c :
  recent ds c → length ds < maxsize → recent (ds ++ [d]) (cache_put d w c).
Proof.
  intros (pre & rest & -> & Hpre) Hlt.
  assert (Hlen : length pre = length ds).
  { by rewrite <- (length_fmap fst), Hpre, length_rev. }
  assert (Hkeys : ((d, w) :: pre).*1 = rev (ds ++ [d])).
  { by rewrite fmap_cons, Hpre, rev_app_distr. }
  unfold cache_put. case_decide as Hfull.
  - destruct rest as [|e rest].
    { rewrite app_nil_r in Hfull. lia. }
    exists ((d, w) :: pre), (removelast (e :: rest)). split; [|done].
    by rewrite removelast_app.
  - by exists ((d, w) :: pre), rest.
Qed.

Section Eviction.

Variable whois_whois : nat → string → exn + whois.WhoisEntry.

Lemma lookup_recent ds d s :
  recent ds (cache s) → d ∉ ds → length ds < maxsize →
  ∃ r s', perform_whois_async whois_whois d s = (Return r, s')
          ∧ recent (ds ++ [d]) (cache s').
Proof.
  intros Hrec Hd Hlt. rewrite async_sync.
  destruct (lookup_cases whois_whois d s)
    as [[v H]|[[H [data Hq]]|[H [e Hq]]]].
  - rewrite (sync_hit _ _ _ _ H). eexists _, _. split; [done|].
    by apply recent_touch.
  - rewrite (sync_miss_ok _ _ _ _ H Hq). eexists _, _. split; [done|].
    by apply recent_put.
  - rewrite (sync_miss_fail _ _ _ _ H Hq). eexists _, _. split; [done|].
    by apply recent_put.
Qed.

Lemma lookups_recent ds : ∀ acc s,
  recent acc (cache s) → NoDup (acc ++ ds) → length (acc ++ ds) ≤ maxsize →
  ∃ outs s', lookups whois_whois ds s = (Return outs, s')
             ∧ recent (acc ++ ds) (cache s').
Proof.
  induction ds as [|d ds IH]; intros acc s Hrec Hnd Hlen.
  - exists [], s. by rewrite app_nil_r.
  - pose proof Hnd as Hnd'. apply NoDup_app in Hnd' as (_ & Hdis & _).
    rewrite length_app in Hlen. cbn [length] in Hlen.
    destruct (lookup_recent acc d s) as (r & s1 & Hr & Hrec1); [done| |lia|].
    { intros Hin. apply (Hdis _ Hin). left. }
    destruct (IH (acc ++ [d]) s1) as (outs & s2 & Hrun & Hrec2); [done| | |].
    { by rewrite <- app_assoc. }
    { rewrite !length_app. cbn [length]. lia. }
    exists (r :: outs), s2. split.
    + cbn [lookups]. unfold mbind, M_bind. by rewrite Hr, Hrun.
    + by rewrite <- app_assoc in Hrec2.
Qed.

(** X6.  The bound of the cache is exact.  After lookups of 128 pairwise
    distinct domains other than [D], whatever was cached for [D] is gone: the
    next lookup of [D] queries the collaborator again, and when it answers, a
    further record for [D] is appended. *)
Theorem evicted_after_maxsize_others D ds s :
  reachable whois_whois s →
  NoDup ds → D ∉ ds → length ds = maxsize →
  ∃ outs s2 r s3,
    lookups whois_whois ds s = (Return outs, s2)
    ∧ cache_get D (cache s2) = None
    ∧ perform_whois_async whois_whois D s2 = (Return r, s3)
    ∧ queries s3 = queries s2 ++ [D]
    ∧ (is_Some r → results s3 = results s2 ++ [length (heap s2)]).
Proof.
  intros Hreach Hnd HD Hlen.
  assert (Hbound : length (cache s) ≤ maxsize).
  { clear -Hreach. induction Hreach as [disk|c s Hreach IH];
      [cbn; unfold maxsize; lia|].
    destruct c as [d|r|p|p]; cbn [exec].
    - by apply lookup_cache_length.
    - by destruct (frame_display_result r s) as (_ & _ & -> & _).
    - by destruct (frame_export_to_json p s) as (_ & _ & -> & _).
    - by destruct (frame_export_to_csv p s) as (_ & _ & -> & _). }
  destruct (lookups_recent ds [] s) as (outs & s2 & Hrun & Hrec);
    [by exists [], (cache s)|done|simpl; lia|].
  pose proof (lookups_cache_length whois_whois ds s Hbound) as Hbound2.
  rewrite Hrun in Hbound2. cbn [snd] in Hbound2.
  assert (Hgone : cache_get D (cache s2) = None).
  { destruct Hrec as (pre & rest & Hc & Hpre). simpl in Hpre.
    assert (length pre = maxsize) as Hp.
    { by rewrite <- (length_fmap fst), Hpre, length_rev. }
    rewrite Hc, length_app in Hbound2.
    destruct rest; [|cbn [length] in Hbound2; lia].
    apply dict_get_None. rewrite Hc, app_nil_r, Hpre.
    intros Hin. apply HD. by apply list_elem_of_In, in_rev, list_elem_of_In. }
  exists outs, s2. rewrite async_sync.
  destruct (lookup_cases whois_whois D s2)
    as [[v H]|[[H [data Hq]]|[H [e Hq]]]]; [congruence| |].
  - rewrite (sync_miss_ok _ _ _ _ H Hq). eexists _, _. done.
  - rewrite (sync_miss_fail _ _ _ _ H Hq). eexists _, _.
    split; [done|]. split; [done|]. split; [done|]. split; [done|].
    by intros [? ?].
Qed.

End Eviction.

Lemma evicted_after_maxsize_others_witness :
  reachable mock_whois demo_state
  ∧ NoDup (some_domains 128)
  ∧ ("example.com" ∉ some_domains 128)
  ∧ length (some_domains 128) = maxsize
  ∧ ∃ outs s2 r s3,
      lookups mock_whois (some_domains 128) demo_state = (Return outs, s2)
      ∧ cache_get "example.com" (cache s2) = None
      ∧ perform_whois_async mock_whois "example.com" s2 = (Return r, s3)
      ∧ queries s3 = queries s2 ++ ["example.com"]
      ∧ (is_Some r → results s3 = results s2 ++ [length (heap s2)]).
Proof.
  split; [apply reachable_exec, reachable_init|].
  split; [compute_done|]. split; [compute_done|]. split; [reflexivity|].
  apply (evicted_after_maxsize_others mock_whois "example.com"
           (some_domains 128) demo_state).
  - apply reachable_exec, reachable_init.
  - compute_done.
  - compute_done.
  - reflexivity.
Defined.

(** ** Exports and the rest of the disk *)

Lemma entry_lookup_update_ne c c' n es :
  c ≠ c' → entry_lookup c' (entry_update c n es) = entry_lookup c' es.
Proof.
  intros Hne. induction es as [|[c0 n0] es IH]; simpl.
  - by rewrite decide_False.
  - destruct (decide (c = c0)) as [->|Hc]; simpl.
    + by rewrite !decide_False.
    + destruct (decide (c' = c0)); [done|]. apply IH.
Qed.

Lemma entry_update_same c n es :
  entry_lookup c es = Some n → entry_update c n es = es.
Proof.
  induction es as [|[c0 n0] es IH]; simpl; [done|].
  destruct (decide (c = c0)) as [->|Hc]; intros H.
  - by simplify_eq.
  - f_equal. by apply IH.
Qed.

Lemma mkdir_from_keeps whole p : ∀ n n' q t,
  mkdir_from whole p n = inr n' →
  fs_lookup q n = Some (File t) → fs_lookup q n' = Some (File t).
Proof.
  induction p as [|c p IH]; intros n n' q t Hmk Hq.
  - destruct n; simpl in Hmk; by simplify_eq.
  - destruct n as [?|es]; simpl in Hmk; [done|].
    destruct q as [|c' q]; [by simplify_eq|]. cbn [fs_lookup] in Hq |- *.
    destruct (entry_lookup c es) as [child|] eqn:Hc.
    + destruct (mkdir_from whole p child) as [e|child'] eqn:Hrec; [done|].
      simplify_eq. destruct (decide (c = c')) as [->|Hne].
      * rewrite entry_lookup_update. rewrite Hc in Hq. cbn in *.
        by eapply IH.
      * by rewrite entry_lookup_update_ne.
    + simplify_eq. destruct (decide (c = c')) as [->|Hne].
      * by rewrite Hc in Hq.
      * by rewrite entry_lookup_update_ne.
Qed.

Lemma open_from_keeps whole p : ∀ n n' q t,
  open_from whole p n = inr n' → q ≠ p →
  fs_lookup q n = Some (File t) → fs_lookup q n' = Some (File t).
Proof.
  induction p as [|c p IH]; intros n n' q t Hop Hne Hq.
  - destruct n; simpl in Hop; [|done]. by destruct q.
  - destruct n as [?|es]; simpl in Hop; [done|].
    destruct q as [|c' q]; [by simplify_eq|]. cbn [fs_lookup] in Hq |- *.
    destruct (entry_lookup c es) as [child|] eqn:Hc.
    + destruct (open_from whole p child) as [e|child'] eqn:Hrec; [done|].
      simplify_eq. destruct (decide (c = c')) as [->|Hcc].
      * rewrite entry_lookup_update. rewrite Hc in Hq. cbn in *.
        eapply IH; [done| |done]. congruence.
      * by rewrite entry_lookup_update_ne.
    + destruct p; [|done]. simplify_eq.
      destruct (decide (c = c')) as [->|Hcc].
      * by rewrite Hc in Hq.
      * by rewrite entry_lookup_update_ne.
Qed.

Lemma write_at_keeps text p : ∀ n q t,
  q ≠ p → fs_lookup q n = Some (File t) →
  fs_lookup q (write_at p text n) = Some (File t).
Proof.
  induction p as [|c p IH]; intros n q t Hne Hq.
  - destruct n; [|done]. by destruct q.
  - destruct n as [?|es]; [done|]. cbn [write_at].
    destruct (entry_lookup c es) as [child|] eqn:Hc; [|done].
    destruct q as [|c' q]; [done|]. cbn [fs_lookup] in Hq |- *.
    destruct (decide (c = c')) as [->|Hcc].
    + rewrite entry_lookup_update. rewrite Hc in Hq. cbn in *.
      apply IH; [congruence|done].
    + by rewrite entry_lookup_update_ne.
Qed.

Lemma read_file_lookup q n t :
  read_file q n = Some t ↔ fs_lookup q n = Some (File t).
Proof.
  unfold read_file. destruct (fs_lookup q n) as [[?|?]|]; naive_solver.
Qed.

Lemma keeps_ret {A} q (a : A) : keeps q (mret a).
Proof. by intros s t. Qed.

Lemma keeps_raise {A} q e : keeps q (@raise A e).
Proof. by intros s t. Qed.

Lemma keeps_gets {A} q (f : state → A) : keeps q (gets f).
Proof. by intros s t. Qed.

Lemma keeps_logger_emit q lv msg : keeps q (logger_emit lv msg).
Proof. by intros s t. Qed.

Lemma keeps_bind {A B} q (m : M A) (k : A → M B) :
  keeps q m → (∀ a, keeps q (k a)) → keeps q (m ≫= k).
Proof.
  intros Hm Hk s t Hq. unfold mbind, M_bind. specialize (Hm s t Hq).
  destruct (m s) as [[a|e] s1]; [|done]. by apply Hk.
Qed.

Lemma keeps_try_except {A} q (m : M A) (h : exn → M A) :
  keeps q m → (∀ e, keeps q (h e)) → keeps q (try_except m h).
Proof.
  intros Hm Hh s t Hq. unfold try_except. specialize (Hm s t Hq).
  destruct (m s) as [[a|e] s1]; [done|]. by apply Hh.
Qed.

Lemma keeps_for_each {A} q (xs : list A) (body : A → M unit) :
  (∀ x, keeps q (body x)) → keeps q (for_each xs body).
Proof.
  intros Hb. induction xs as [|x xs IH]; [apply keeps_ret|].
  by apply keeps_bind.
Qed.

Lemma keeps_mkdir q p : keeps q (fs_call (mkdir_parents p)).
Proof.
  intros s t Hq. unfold fs_call.
  destruct (mkdir_parents p (fs s)) as [e|n] eqn:Hmk; [done|].
  apply read_file_lookup. apply read_file_lookup in Hq.
  by eapply mkdir_from_keeps.
Qed.

Lemma keeps_open q p : q ≠ p → keeps q (fs_call (open_w p)).
Proof.
  intros Hne s t Hq. unfold fs_call.
  destruct (open_w p (fs s)) as [e|n] eqn:Hop; [done|].
  apply read_file_lookup. apply read_file_lookup in Hq.
  by eapply open_from_keeps.
Qed.

Lemma keeps_f_write q p text : q ≠ p → keeps q (f_write p text).
Proof.
  intros Hne s t Hq. apply read_file_lookup. apply read_file_lookup in Hq.
  by apply write_at_keeps.
Qed.

Lemma keeps_writerow q p fieldnames rowdict :
  q ≠ p → keeps q (writerow p fieldnames rowdict).
Proof.
  intros Hne. unfold writerow.
  destruct (csv.dict_to_list _ _); [apply keeps_raise|by apply keeps_f_write].
Qed.

#[local] Hint Resolve keeps_ret keeps_raise keeps_gets keeps_logger_emit
  keeps_mkdir keeps_open keeps_f_write keeps_writerow : keeps.
#[local] Hint Extern 1 (keeps _ (logger_info _)) =>
  apply keeps_logger_emit : keeps.
#[local] Hint Extern 1 (keeps _ (logger_error _)) =>
  apply keeps_logger_emit : keeps.
#[local] Hint Extern 2 (keeps _ (_ ≫= _)) =>
  apply keeps_bind; [|intros ?] : keeps.
#[local] Hint Extern 2 (keeps _ (try_except _ _)) =>
  apply keeps_try_except; [|intros ?] : keeps.
#[local] Hint Extern 2 (keeps _ (for_each _ _)) =>
  apply keeps_for_each; intros ? : keeps.
#[local] Hint Extern 3 (keeps _ (match ?x with _ => _ end)) =>
  destruct x : keeps.





(** ** Exporting again *)

Lemma mkdir_from_dir whole q : ∀ n es,
  fs_lookup q n = Some (Dir es) → mkdir_from whole q n = inr n.
Proof.
  induction q as [|c q IH]; intros n es Hq.
  - simpl in Hq. by simplify_eq.
  - destruct n as [?|es0]; [done|]. cbn [fs_lookup] in Hq. cbn [mkdir_from].
    destruct (entry_lookup c es0) as [child|] eqn:Hc; [|done]. cbn in Hq.
    rewrite (IH child es Hq). by rewrite entry_update_same.
Qed.

Lemma open_from_file whole p : ∀ n t,
  fs_lookup p n = Some (File t) → ∃ n', open_from whole p n = inr n'.
Proof.
  induction p as [|c p IH]; intros n t Hp.
  - simpl in Hp. simplify_eq. by eexists.
  - destruct n as [?|es]; [done|]. cbn [fs_lookup] in Hp. cbn [open_from].
    destruct (entry_lookup c es) as [child|] eqn:Hc; [|done]. cbn in Hp.
    destruct (IH child t Hp) as (child' & ->). by eexists.
Qed.

(** A target that is a regular file can be opened again. *)
Lemma prepare_existing_file p n t :
  p ≠ [] → read_file p n = Some t → ∃ n', prepare p n = inr n'.
Proof.
  intros Hne Hp%read_file_lookup.
  destruct (fs_lookup_parent p n (File t) Hne Hp) as (es & Hdir).
  unfold prepare, mkdir_parents. rewrite (mkdir_from_dir _ _ _ _ Hdir).
  by eapply open_from_file.
Qed.

(** X9.  [export_to_json] replaces the file: after an export that returned,
    the same export again returns too, and the file holds the array once,
    as after the first. *)
Theorem export_json_again s p s1 :
  export_to_json p s = (Return tt, s1) →
  ∃ s2,
    export_to_json p s1 = (Return tt, s2)
    ∧ read_file p (fs s1)
      = Some (json.dumps (json.of_list (map to_dict (records s))))
    ∧ read_file p (fs s2) = read_file p (fs s1).
Proof.
  intros Hrun. destruct (prepare p (fs s)) as [e|n] eqn:Hprep.
  { by rewrite (export_to_json_io_error _ _ _ Hprep) in Hrun. }
  rewrite (export_to_json_ok _ _ _ Hprep) in Hrun. simplify_eq.
  set (text := json.dumps (json.of_list (map to_dict (records s)))).
  set (s1 := logged INFO _ _).
  assert (Hfile : read_file p (fs s1) = Some text).
  { apply (written_file p n text). by eapply prepare_lookup. }
  destruct (prepare_existing_file p (fs s1) text) as (n2 & Hprep2);
    [by eapply prepare_nonempty|done|].
  rewrite (export_to_json_ok _ _ _ Hprep2). eexists. split; [done|].
  split; [done|]. rewrite Hfile. cbn [logged logger_emit snd fs set_fs].
  apply (written_file p n2 text). by eapply prepare_lookup.
Qed.

Lemma export_json_again_witness :
  export_to_json ["out"; "r.json"] demo_state
  = (Return tt, (export_to_json ["out"; "r.json"] demo_state).2)
  ∧ ∃ s2,
      export_to_json ["out"; "r.json"]
        (export_to_json ["out"; "r.json"] demo_state).2 = (Return tt, s2)
      ∧ read_file ["out"; "r.json"]
          (fs (export_to_json ["out"; "r.json"] demo_state).2)
        = Some (json.dumps (json.of_list (map to_dict (records demo_state))))
      ∧ read_file ["out"; "r.json"] (fs s2)
        = read_file ["out"; "r.json"]
            (fs (export_to_json ["out"; "r.json"] demo_state).2).
Proof.
  split; [vm_compute; reflexivity|].
  apply (export_json_again demo_state ["out"; "r.json"]).
  vm_compute; reflexivity.
Defined.

(** X10.  [export_to_csv] replaces the file as well: after an export that
    returned, the same export again returns and leaves the same header and
    rows, not a second copy of them. *)
Theorem export_csv_again whois_whois s p s1 :
  reachable whois_whois s →
  export_to_csv p s = (Return tt, s1) →
  ∃ s2 text,
    export_to_csv p s1 = (Return tt, s2)
    ∧ text = csv_text (map Some field_names
                         :: map (λ r, map snd (to_dict r)) (records s))
    ∧ read_file p (fs s1) = Some text
    ∧ read_file p (fs s2) = Some text.
Proof.
  intros [_ Hrefs _]%reachable_wf Hrun.
  destruct (prepare p (fs s)) as [e|n] eqn:Hprep.
  { by rewrite (export_to_csv_io_error _ _ _ Hprep) in Hrun. }
  destruct (results s) as [|l0 ls] eqn:Hres.
  { by rewrite (export_to_csv_empty _ _ _ Hres Hprep) in Hrun. }
  assert (Hne : results s ≠ []) by by rewrite Hres.
  pose proof (records_length s Hrefs) as Hlen.
  destruct (records s) as [|r0 rest] eqn:Hrecs.
  { rewrite Hres in Hlen. simpl in Hlen. lia. }
  destruct (export_to_csv_ok p s n r0 rest Hne Hrecs Hprep)
    as (n' & Hok & Hfile).
  rewrite Hok in Hrun. simplify_eq.
  set (s1 := logged INFO _ _). rewrite keys_to_dict, Hrecs in Hfile.
  destruct (prepare_existing_file p (fs s1) _ (prepare_nonempty _ _ _ Hprep)
              Hfile) as (n2 & Hprep2).
  destruct (export_to_csv_ok p s1 n2 r0 rest) as (n2' & Hok2 & Hfile2);
    [exact Hne|exact Hrecs|exact Hprep2|].
  rewrite Hok2. eexists _, _. split; [done|]. split; [done|].
  split; [exact Hfile|]. cbn [logged logger_emit snd fs set_fs].
  rewrite Hfile2, keys_to_dict.
  change (records s1) with (records s). by rewrite Hrecs.
Qed.

Lemma export_csv_again_witness :
  reachable mock_whois demo_state
  ∧ export_to_csv ["out"; "r.csv"] demo_state
    = (Return tt, (export_to_csv ["out"; "r.csv"] demo_state).2)
  ∧ ∃ s2 text,
      export_to_csv ["out"; "r.csv"]
        (export_to_csv ["out"; "r.csv"] demo_state).2 = (Return tt, s2)
      ∧ text = csv_text (map Some field_names
                           :: map (λ r, map snd (to_dict r))
                                (records demo_state))
      ∧ read_file ["out"; "r.csv"]
          (fs (export_to_csv ["out"; "r.csv"] demo_state).2) = Some text
      ∧ read_file ["out"; "r.csv"] (fs s2) = Some text.
Proof.
  split; [apply reachable_exec, reachable_init|].
  split; [vm_compute; reflexivity|].
  apply (export_csv_again mock_whois demo_state ["out"; "r.csv"]).
  - apply reachable_exec, reachable_init.
  - vm_compute; reflexivity.
Defined.

(** ** The log and the console do not steer the tool *)

Lemma agree_refl s : agree s s.
Proof. by repeat split. Qed.

Lemma agree_sym s t : agree s t → agree t s.
Proof. intros (?&?&?&?&?). by repeat split. Qed.

Lemma agree_trans s t u : agree s t → agree t u → agree s u.
Proof. unfold agree. intros (?&?&?&?&?) (?&?&?&?&?). repeat split; congruence. Qed.

Lemma agree_printed lines s : agree (printed lines s) s.
Proof. by repeat split. Qed.

Lemma agree_logged lv msg s : agree (logged lv msg s) s.
Proof. by repeat split. Qed.

Lemma blind_ret {A} (a : A) : blind (mret a).
Proof. by intros s t H. Qed.

Lemma blind_raise {A} e : blind (@raise A e).
Proof. by intros s t H. Qed.

Lemma blind_gets {A} (f : state → A) :
  (∀ s t, agree s t → f s = f t) → blind (gets f).
Proof. intros Hf s t H. split; [|done]. cbn. f_equal. by apply Hf. Qed.

Lemma blind_bind {A B} (m : M A) (k : A → M B) :
  blind m → (∀ a, blind (k a)) → blind (m ≫= k).
Proof.
  intros Hm Hk s t H. unfold mbind, M_bind. destruct (Hm s t H) as [Ho Hs].
  destruct (m s) as [[a|e] s1], (m t) as [[a'|e'] t1]; simpl in *;
    simplify_eq; [by apply Hk|done].
Qed.

Lemma blind_try_except {A} (m : M A) (h : exn → M A) :
  blind m → (∀ e, blind (h e)) → blind (try_except m h).
Proof.
  intros Hm Hh s t H. unfold try_except. destruct (Hm s t H) as [Ho Hs].
  destruct (m s) as [[a|e] s1], (m t) as [[a'|e'] t1]; simpl in *;
    simplify_eq; [done|by apply Hh].
Qed.

Lemma blind_logger_emit lv msg : blind (logger_emit lv msg).
Proof. intros s t H. split; [done|]. exact H. Qed.

Lemma blind_print line : blind (print line).
Proof. intros s t H. split; [done|]. exact H. Qed.

Lemma blind_fs_call op : blind (fs_call op).
Proof.
  intros s t H. pose proof H as (Hh & Hr & Hc & Hq & Hf).
  unfold fs_call. rewrite Hf. destruct (op (fs t)); [done|].
  split; [done|]. by repeat split.
Qed.

Lemma blind_f_write f text : blind (f_write f text).
Proof.
  intros s t (Hh & Hr & Hc & Hq & Hf). split; [done|].
  repeat split; cbn; congruence.
Qed.

Lemma blind_set_cache c : blind (set_cache c).
Proof. intros s t (Hh & Hr & Hc & Hq & Hf). split; [done|]. by repeat split. Qed.

Lemma blind_new_WhoisResult r : blind (new_WhoisResult r).
Proof.
  intros s t (Hh & Hr & Hc & Hq & Hf). unfold new_WhoisResult. cbn.
  rewrite Hh. split; [done|]. by repeat split.
Qed.

Lemma blind_results_append l : blind (results_append l).
Proof.
  intros s t (Hh & Hr & Hc & Hq & Hf). split; [done|].
  repeat split; cbn; congruence.
Qed.

Lemma blind_for_each {A} (xs : list A) (body : A → M unit) :
  (∀ x, blind (body x)) → blind (for_each xs body).
Proof.
  intros Hb. induction xs as [|x xs IH]; [apply blind_ret|].
  by apply blind_bind.
Qed.

Lemma blind_writerow f fieldnames rowdict : blind (writerow f fieldnames rowdict).
Proof.
  unfold writerow. destruct (csv.dict_to_list _ _);
    [apply blind_raise|apply blind_f_write].
Qed.

Lemma agree_records s t : agree s t → records s = records t.
Proof. intros (Hh & Hr & _). unfold records. by rewrite Hh, Hr. Qed.

#[local] Hint Resolve blind_ret blind_raise blind_logger_emit blind_print
  blind_fs_call blind_f_write blind_set_cache blind_new_WhoisResult
  blind_results_append blind_writerow : blind.
#[local] Hint Extern 1 (blind (logger_info _)) =>
  apply blind_logger_emit : blind.
#[local] Hint Extern 1 (blind (logger_error _)) =>
  apply blind_logger_emit : blind.
#[local] Hint Extern 1 (blind (gets records)) =>
  apply blind_gets, agree_records : blind.
#[local] Hint Extern 2 (blind (gets _)) =>
  apply blind_gets; intros ? ? (?&?&?&?&?); congruence : blind.
#[local] Hint Extern 2 (blind (_ ≫= _)) =>
  apply blind_bind; [|intros ?] : blind.
#[local] Hint Extern 2 (blind (try_except _ _)) =>
  apply blind_try_except; [|intros ?] : blind.
#[local] Hint Extern 2 (blind (for_each _ _)) =>
  apply blind_for_each; intros ? : blind.
#[local] Hint Extern 3 (blind (match ?x with _ => _ end)) =>
  destruct x : blind.

Lemma blind_display_result r : blind (display_result r).
Proof.
  unfold display_result, display_items. apply blind_bind.
  - apply blind_gets. intros s t (Hh & _). by rewrite Hh.
  - intros [x|]; auto 20 with blind.
Qed.

Lemma blind_export_to_json p : blind (export_to_json p).
Proof. unfold export_to_json. auto 20 with blind. Qed.

Lemma blind_export_to_csv p : blind (export_to_csv p).
Proof. unfold export_to_csv, writeheader, writerows. auto 30 with blind. Qed.

Section Blind.

Variable whois_whois : nat → string → exn + whois.WhoisEntry.

Lemma blind_whois_query d : blind (whois_query whois_whois d).
Proof.
  intros s t (Hh & Hr & Hc & Hq & Hf). unfold whois_query. rewrite Hq.
  destruct (whois_whois (length (queries t)) d); (split; [done|]);
    repeat split; cbn; congruence.
Qed.

Lemma blind_perform_whois_async d : blind (perform_whois_async whois_whois d).
Proof.
  pose proof blind_whois_query.
  unfold perform_whois_async, _perform_whois_sync, lru_cache,
    perform_whois_sync_wrapped.
  auto 30 with blind.
Qed.

Lemma exec_agree c s t :
  agree s t → agree (exec whois_whois c s) (exec whois_whois c t).
Proof.
  intros H. destruct c as [d|r|p|p]; cbn [exec].
  - by apply blind_perform_whois_async.
  - by apply blind_display_result.
  - by apply blind_export_to_json.
  - by apply blind_export_to_csv.
Qed.

Lemma exec_all_agree cs : ∀ s t,
  agree s t → agree (exec_all whois_whois cs s) (exec_all whois_whois cs t).
Proof.
  induction cs as [|c cs IH]; intros s t H; [done|].
  cbn [exec_all foldl]. by apply IH, exec_agree.
Qed.

End Blind.

(** ** The menu loop, turn by turn *)

Lemma display_result_returns r s :
  ∃ lines, display_result r s = (Return tt, printed lines s).
Proof.
  unfold display_result, gets, mbind, M_bind.
  destruct (option_bind _ _ _ r) as [x|].
  - unfold print at 1. rewrite display_items_spec.
    change (mk_state (heap s) (results s) (cache s) (queries s) (log s)
              (stdout s ++ [banner]) (fs s))
      with (printed [banner] s).
    rewrite printed_printed. by eexists.
  - by exists ["[!] No results available."].
Qed.

Section MainBody.

Variable whois_whois : nat → string → exn + whois.WhoisEntry.
Variable Path : string → path.

Ltac agree_by_fields := repeat split; cbn; congruence.

(** One iteration does what [read_turn] reads: it ends with [Next] or
    [Stop], never with an exception, and changes the tool and the disk as
    the one command of the turn does. *)
Lemma main_body_turn inp s :
  ∃ s',
    main_body whois_whois Path inp s
    = (Done (flow_of (read_turn Path inp).1), (read_turn Path inp).2, s')
    ∧ agree s' (after_turn whois_whois (read_turn Path inp).1 s).
Proof.
  unfold main_body, try_main, mbind, IO_bind, lift, input, mret, IO_ret,
    read_turn, read_argument.
  destruct inp as [|[text|] rest]; simpl.
  - eexists. split; [reflexivity|agree_by_fields].
  - repeat case_decide.
    + destruct rest as [|[d|] rest']; simpl.
      * eexists. split; [reflexivity|agree_by_fields].
      * set (s0 := mk_state _ _ _ _ _ _ _).
        assert (Hs0 : agree s0 s) by agree_by_fields.
        destruct (blind_perform_whois_async whois_whois (strip d) s0 s Hs0)
          as [_ Hag].
        destruct (perform_whois_async whois_whois (strip d) s0) as [[r|e] s1].
        -- destruct (display_result_returns r s1) as (lines & ->).
           eexists. split; [reflexivity|].
           eapply agree_trans; [apply agree_printed|exact Hag].
        -- eexists. split; [reflexivity|].
           eapply agree_trans; [|exact Hag]. agree_by_fields.
      * eexists. split; [reflexivity|agree_by_fields].
    + destruct rest as [|[f|] rest']; simpl.
      * eexists. split; [reflexivity|agree_by_fields].
      * set (s0 := mk_state _ _ _ _ _ _ _).
        assert (Hs0 : agree s0 s) by agree_by_fields.
        destruct (blind_export_to_json (Path (strip f)) s0 s Hs0) as [_ Hag].
        destruct (export_to_json (Path (strip f)) s0) as [[[]|e] s1];
          (eexists; split; [reflexivity|]);
          (eapply agree_trans; [|exact Hag]); agree_by_fields.
      * eexists. split; [reflexivity|agree_by_fields].
    + destruct rest as [|[f|] rest']; simpl.
      * eexists. split; [reflexivity|agree_by_fields].
      * set (s0 := mk_state _ _ _ _ _ _ _).
        assert (Hs0 : agree s0 s) by agree_by_fields.
        destruct (blind_export_to_csv (Path (strip f)) s0 s Hs0) as [_ Hag].
        destruct (export_to_csv (Path (strip f)) s0) as [[[]|e] s1];
          (eexists; split; [reflexivity|]);
          (eapply agree_trans; [|exact Hag]); agree_by_fields.
      * eexists. split; [reflexivity|agree_by_fields].
    + eexists. split; [reflexivity|agree_by_fields].
    + eexists. split; [reflexivity|agree_by_fields].
  - eexists. split; [reflexivity|agree_by_fields].
Qed.

End MainBody.

Section MainLoop.

Variable whois_whois : nat → string → exn + whois.WhoisEntry.
Variable Path : string → path.

Lemma read_turn_no_exit inp :
  no_exit inp →
  ∃ c, (read_turn Path inp).1 = Again c ∧ no_exit (read_turn Path inp).2.
Proof.
  intros [Hc Hq]. unfold read_turn, read_argument.
  assert (Htail : ∀ e rest, inp = e :: rest → no_exit rest).
  { intros e rest ->. split.
    - intros Hin. apply Hc. by right.
    - intros text Hin. apply Hq. by right. }
  assert (Htail2 : ∀ e e' rest, inp = e :: e' :: rest → no_exit rest).
  { intros e e' rest ->. split.
    - intros Hin. apply Hc. right. by right.
    - intros text Hin. apply Hq. right. by right. }
  assert (Hnil : no_exit []).
  { split; [apply not_elem_of_nil|]. intros text Hin.
    by apply elem_of_nil in Hin. }
  assert (Hsecond : ∀ e rest, inp = e :: CtrlC :: rest → False).
  { intros e rest ->. apply Hc. right. left. }
  destruct inp as [|[text|] rest]; [by eexists| |exfalso; apply Hc; left].
  repeat case_decide.
  - destruct rest as [|[d|] rest']; simpl; [by eexists|eauto|].
    exfalso. by eapply Hsecond.
  - destruct rest as [|[d|] rest']; simpl; [by eexists|eauto|].
    exfalso. by eapply Hsecond.
  - destruct rest as [|[d|] rest']; simpl; [by eexists|eauto|].
    exfalso. by eapply Hsecond.
  - exfalso. eapply Hq; [left|done].
  - simpl. eauto.
Qed.

(** X11.  The loop ends only when asked to: on an input with no interrupt
    and no line that reads [4] it is still running after any number of
    iterations.  Wrong choices, failed lookups, failed exports and the end
    of the input (which [input] reports with [EOFError] at every prompt) do
    not end it. *)
Theorem main_loop_runs_on inp :
  no_exit inp → ∀ fuel s, main_loop whois_whois Path fuel inp s = None.
Proof.
  intros Hno fuel. revert inp Hno.
  induction fuel as [|fuel IH]; intros inp Hno s; [done|].
  destruct (read_turn_no_exit inp Hno) as (c & Hturn & Hrest).
  destruct (main_body_turn whois_whois Path inp s) as (s' & Hbody & _).
  cbn [main_loop]. rewrite Hbody, Hturn. cbn [flow_of]. by apply IH.
Qed.

Lemma commands_of_turn inp :
  commands_of Path inp
  = match (read_turn Path inp).1 with
    | Again (Some c) => c :: commands_of Path (read_turn Path inp).2
    | Again None => commands_of Path (read_turn Path inp).2
    | Quit | Cancelled => []
    end.
Proof.
  unfold read_turn, read_argument.
  destruct inp as [|[text|] rest]; [done| |done]. cbn [commands_of].
  repeat case_decide; try done; by destruct rest as [|[d|] rest'].
Qed.


(** X13.  The choice [4], with white space around it or not, ends the
    loop at once: the menu, the prompt and the farewell are printed, the
    rest of the input is not read, and the tool, the log and the disk are
    untouched. *)
Theorem main_loop_quit text rest fuel s :
  strip text = "4" →
  main_loop whois_whois Path (S fuel) (Line text :: rest) s
  = Some (Done tt, rest,
          printed ["Thank you for using WHOIS Tool. Goodbye!"]
            (printed ["Choose an option: "] (printed [menu] s))).
Proof.
  intros H. cbn [main_loop].
  unfold main_body, try_main, mbind, IO_bind, lift, input, mret, IO_ret.
  simpl. rewrite H.
  rewrite !decide_False by discriminate. by rewrite decide_True.
Qed.

(** X14.  An export that fails inside the loop does not end it: the error
    is logged by the export and once more by the loop, shown on the
    console, and the list of records is as before. *)
Theorem main_body_reports_export_error text f rest s e :
  strip text = "2" ∨ strip text = "3" →
  prepare (Path (strip f)) (fs s) = inl e →
  ∃ s' kind,
    main_body whois_whois Path (Line text :: Line f :: rest) s
    = (Done Next, rest, s')
    ∧ kind = (if decide (strip text = "2") then "JSON" else "CSV")
    ∧ log s'
      = log s
        ++ [(ERROR, "Error exporting to " +:+ kind +:+ ": " +:+ exn_str e);
            (ERROR, "Unexpected error: " +:+ exn_str e)]
    ∧ last (stdout s') = Some ("An error occurred: " +:+ exn_str e)
    ∧ results s' = results s
    ∧ heap s' = heap s.
Proof.
  intros Hchoice Hprep.
  unfold main_body, try_main, mbind, IO_bind, lift, input, mret, IO_ret.
  simpl. destruct Hchoice as [H|H]; rewrite H.
  - rewrite decide_False by discriminate. rewrite decide_True by done.
    erewrite export_to_json_io_error by exact Hprep.
    eexists _, _. split; [reflexivity|]. split; [reflexivity|].
    cbn. rewrite <- app_assoc. split; [done|].
    split; [by rewrite last_snoc|done].
  - rewrite !decide_False by discriminate. rewrite decide_True by done.
    erewrite export_to_csv_io_error by exact Hprep.
    eexists _, _. split; [reflexivity|]. split; [reflexivity|].
    cbn. rewrite <- app_assoc. split; [done|].
    split; [by rewrite last_snoc|done].
Qed.

(** X15.  Choosing the CSV export before any lookup, with an existing file
    as the target, empties that file: the loop reports that there is
    nothing to export and goes on. *)
Theorem main_body_csv_export_empties_file text f rest s old :
  strip text = "3" →
  results s = [] →
  Path (strip f) ≠ [] →
  read_file (Path (strip f)) (fs s) = Some old →
  ∃ s',
    main_body whois_whois Path (Line text :: Line f :: rest) s
    = (Done Next, rest, s')
    ∧ read_file (Path (strip f)) (fs s') = Some ""
    ∧ last (stdout s') = Some "An error occurred: No results to export"
    ∧ results s' = [].
Proof.
  intros H Hres Hne Hold.
  destruct (prepare_existing_file _ _ _ Hne Hold) as (n & Hprep).
  unfold main_body, try_main, mbind, IO_bind, lift, input, mret, IO_ret.
  simpl. rewrite H.
  rewrite !decide_False by discriminate. rewrite decide_True by done.
  erewrite export_to_csv_empty; [|exact Hres|exact Hprep].
  eexists. split; [reflexivity|]. cbn. split; [by eapply prepare_lookup|].
  split; [by rewrite last_snoc|done].
Qed.

End MainLoop.

Lemma no_exit_after_lookup : no_exit [Line "1"; Line "example.com"].
Proof.
  split.
  - intros [?|[?|?%elem_of_nil]%elem_of_cons]%elem_of_cons; done.
  - intros text [Heq|[Heq|?%elem_of_nil]%elem_of_cons]%elem_of_cons;
      [| |done]; injection Heq as ->; vm_compute; discriminate.
Qed.

Lemma main_loop_runs_on_witness :
  no_exit [Line "1"; Line "example.com"]
  ∧ ∀ fuel s,
      main_loop mock_whois posix_parts fuel [Line "1"; Line "example.com"] s
      = None.
Proof.
  split; [apply no_exit_after_lookup|].
  apply (main_loop_runs_on mock_whois posix_parts
           [Line "1"; Line "example.com"]).
  apply no_exit_after_lookup.
Defined.


Lemma main_loop_quit_witness :
  strip " 4 " = "4"
  ∧ main_loop mock_whois posix_parts 1 [Line " 4 "; Line "1"] (init disk0)
    = Some (Done tt, [Line "1"],
            printed ["Thank you for using WHOIS Tool. Goodbye!"]
              (printed ["Choose an option: "] (printed [menu] (init disk0)))).
Proof.
  split; [vm_compute; reflexivity|].
  apply (main_loop_quit mock_whois posix_parts " 4 " [Line "1"] 0 (init disk0)).
  vm_compute; reflexivity.
Defined.

Lemma main_body_reports_export_error_witness :
  (strip "2" = "2" ∨ strip "2" = "3")
  ∧ prepare (posix_parts (strip "notes.txt/x.json")) (fs demo_state)
    = inl (FileExistsError ["notes.txt"])
  ∧ ∃ s' kind,
      main_body mock_whois posix_parts
        [Line "2"; Line "notes.txt/x.json"; Line "4"] demo_state
      = (Done Next, [Line "4"], s')
      ∧ kind = (if decide (strip "2" = "2") then "JSON" else "CSV")
      ∧ log s'
        = log demo_state
          ++ [(ERROR, "Error exporting to " +:+ kind +:+ ": "
                      +:+ exn_str (FileExistsError ["notes.txt"]));
              (ERROR, "Unexpected error: "
                      +:+ exn_str (FileExistsError ["notes.txt"]))]
      ∧ last (stdout s')
        = Some ("An error occurred: "
                +:+ exn_str (FileExistsError ["notes.txt"]))
      ∧ results s' = results demo_state
      ∧ heap s' = heap demo_state.
Proof.
  split; [left; vm_compute; reflexivity|].
  split; [vm_compute; reflexivity|].
  apply (main_body_reports_export_error mock_whois posix_parts "2"
           "notes.txt/x.json" [Line "4"] demo_state
           (FileExistsError ["notes.txt"])).
  - left; vm_compute; reflexivity.
  - vm_compute; reflexivity.
Defined.

Lemma main_body_csv_export_empties_file_witness :
  strip "3" = "3"
  ∧ results (init disk0) = []
  ∧ posix_parts (strip "notes.txt") ≠ []
  ∧ read_file (posix_parts (strip "notes.txt")) (fs (init disk0)) = Some "keep"
  ∧ ∃ s',
      main_body mock_whois posix_parts [Line "3"; Line "notes.txt"] (init disk0)
      = (Done Next, [], s')
      ∧ read_file (posix_parts (strip "notes.txt")) (fs s') = Some ""
      ∧ last (stdout s') = Some "An error occurred: No results to export"
      ∧ results s' = [].
Proof.
  split; [vm_compute; reflexivity|]. split; [reflexivity|].
  split; [vm_compute; discriminate|]. split; [vm_compute; reflexivity|].
  apply (main_body_csv_export_empties_file mock_whois posix_parts "3"
           "notes.txt" [] (init disk0) "keep").
  - vm_compute; reflexivity.
  - reflexivity.
  - vm_compute; discriminate.
  - vm_compute; reflexivity.
Defined.

(** ** The console *)

Lemma omap_length_le {A B} (f : A → option B) (l : list A) :
  length (omap f l) ≤ length l.
Proof.
  induction l as [|x l IH]; [done|]. cbn [omap list_omap length].
  destruct (f x); cbn [length]; lia.
Qed.

(** X16.  [display_result] only prints: it returns, and the objects, the
    list, the cache, the log and the disk are as before.  Without a result
    it prints the one line that says so; with a record it prints the banner
    and at most nine lines, one for each field that is set and not empty. *)
Theorem display_result_only_prints r s :
  ∃ lines,
    display_result r s = (Return tt, printed lines s)
    ∧ (r = None → lines = ["[!] No results available."])
    ∧ ∀ l rec, r = Some l → heap s !! l = Some rec →
        lines = banner :: console_items (to_dict rec) ∧ length lines ≤ 10.
Proof.
  destruct r as [l|].
  - destruct (heap s !! l) as [rec|] eqn:Hl.
    + exists (banner :: console_items (to_dict rec)).
      split; [by apply display_result_spec|]. split; [done|].
      intros l' rec' ? Hl'. simplify_eq. split; [done|].
      cbn [length]. pose proof (omap_length_le
        (λ kv : string * option string,
           match kv.2 with
           | Some value =>
               if Py.truthy value then Some (display_line kv.1 value) else None
           | None => None
           end) (to_dict rec)) as Hle.
      unfold console_items. change (length (to_dict rec)) with 9 in Hle. lia.
    + destruct (display_result_returns (Some l) s) as (lines & Hrun).
      exists lines. split; [done|]. split; [done|].
      intros l' rec' ? Hl'. simplify_eq.
  - exists ["[!] No results available."]. split; [done|]. split; [done|].
    intros l rec ?. done.
Qed.
